(** * Deduplication engine of the funded-companies scraper

    A shallow embedding of [utils/deduplication.py] and the properties of
    its grouping, merge and statistics functions.

    Company records are Python dictionaries with string keys.  They are
    modelled as [gmap string value], where [value] covers the values the
    source adapters put into a record: [None], integers, strings and flat
    lists of those.  Strings are sequences of ASCII characters.  Python
    exceptions are modelled by the [Raise] outcome of [result].

    The similarity scores, floating-point numbers in Python, are rational
    numbers here.  The progress messages printed by the engine are left
    out.  The merge appends to the investors list of the highest-priority
    record in place; the functions below return the merged records as
    values, which agrees with the code as long as no two input records
    share one list object, as is the case for the records the source
    adapters build. *)

From Stdlib Require Import QArith Qminmax Ascii.
From stdpp Require Import gmap strings list fin_maps sorting.

#[local] Set Warnings "-clear-no-such-hyp".
#[local] Set Warnings "-level-tolerance".

(** ** Values and records *)

(** Hashable Python values: the elements of lists and sets. *)
Inductive atom :=
  | ANone
  | AInt (n : Z)
  | AStr (s : string).

Inductive value :=
  | VAtom (a : atom)
  | VList (l : list atom).

Coercion VAtom : atom >-> value.

Abbreviation VNone := (VAtom ANone).
Abbreviation VInt n := (VAtom (AInt n)).
Abbreviation VStr s := (VAtom (AStr s)).

#[global] Instance atom_eq_dec : EqDecision atom.
Proof. solve_decision. Defined.

#[global] Instance value_eq_dec : EqDecision value.
Proof. solve_decision. Defined.

Abbreviation record := (gmap string value).

(** Python exceptions raised by the engine on ill-typed records. *)
Inductive exn := TypeError | AttributeError | IndexError.

Inductive result (A : Type) :=
  | Ok (a : A)
  | Raise (e : exn).

Arguments Ok {A} a.
Arguments Raise {A} e.

#[global] Instance result_ret : MRet result := λ A a, Ok a.
#[global] Instance result_bind : MBind result := λ A B f m,
  match m with
  | Ok a => f a
  | Raise e => Raise e
  end.

Fixpoint mapM_result {A B} (f : A → result B) (l : list A) : result (list B) :=
  match l with
  | [] => Ok []
  | x :: xs => y ← f x; ys ← mapM_result f xs; Ok (y :: ys)
  end.

Fixpoint foldM_result {A B} (f : B → A → result B) (b : B) (l : list A)
  : result B :=
  match l with
  | [] => Ok b
  | x :: xs => b' ← f b x; foldM_result f b' xs
  end.

(** Python truthiness ([bool(v)], [if v:], [not v]). *)
Definition atom_truthy (a : atom) : bool :=
  match a with
  | ANone => false
  | AInt n => negb (n =? 0)%Z
  | AStr s => negb (String.eqb s "")
  end.

Definition truthy (v : value) : bool :=
  match v with
  | VAtom a => atom_truthy a
  | VList l => match l with [] => false | _ => true end
  end.

(** [d.get(k)] and [d.get(k, default)]. *)
Definition get (d : record) (k : string) : value := default VNone (d !! k).
Definition get_or (d : record) (k : string) (dflt : value) : value :=
  default dflt (d !! k).

(** ** Characters and strings *)

Definition chars (s : string) : list ascii := String.list_ascii_of_string s.
Definition of_chars (l : list ascii) : string := String.string_of_list_ascii l.

(** [str.isspace] and the regular-expression class [\s] on ASCII. *)
Definition is_space (c : ascii) : bool :=
  let n := nat_of_ascii c in
  (((9 <=? n) && (n <=? 13)) || ((28 <=? n) && (n <=? 32)))%nat.

(** The regular-expression class [\w] on ASCII. *)
Definition is_word (c : ascii) : bool :=
  let n := nat_of_ascii c in
  (((48 <=? n) && (n <=? 57)) || ((65 <=? n) && (n <=? 90))
   || ((97 <=? n) && (n <=? 122)) || (n =? 95))%nat.

Definition lower_char (c : ascii) : ascii :=
  let n := nat_of_ascii c in
  if ((65 <=? n) && (n <=? 90))%nat then ascii_of_nat (n + 32) else c.

(** [s.lower()]. *)
Definition lower (l : list ascii) : list ascii := map lower_char l.

Fixpoint lstrip (l : list ascii) : list ascii :=
  match l with
  | c :: r => if is_space c then lstrip r else l
  | [] => []
  end.

(** [s.strip()]. *)
Definition strip (l : list ascii) : list ascii :=
  rev (lstrip (rev (lstrip l))).

(** ** Name normalisation *)

(** The fragment of regular expressions used by [COMPANY_SUFFIXES]: a
    literal character, an optional character ([c?]) and a greedy run of
    white space ([\s*]).  Every pattern ends in [$]. *)
Inductive item :=
  | Lit (c : ascii)
  | Opt (c : ascii)
  | Spaces.

(** [$]: the end of the string, or just before a final newline. *)
Definition at_end (s : list ascii) : bool :=
  match s with
  | [] => true
  | [c] => Ascii.eqb c "010"
  | _ => false
  end.

(** Backtracking match of [p$] at the start of [s], case-insensitive,
    returning the number of characters matched. *)
Fixpoint re_match (p : list item) (s : list ascii) : option nat :=
  match p with
  | [] => if at_end s then Some 0 else None
  | Lit c :: p' =>
      match s with
      | c' :: s' =>
          if Ascii.eqb (lower_char c') c then S <$> re_match p' s' else None
      | [] => None
      end
  | Opt c :: p' =>
      match s with
      | c' :: s' =>
          if Ascii.eqb (lower_char c') c then
            match re_match p' s' with
            | Some n => Some (S n)
            | None => re_match p' s
            end
          else re_match p' s
      | [] => re_match p' s
      end
  | Spaces :: p' =>
      (fix go (s : list ascii) : option nat :=
         match s with
         | c' :: s' =>
             if is_space c' then
               match go s' with
               | Some n => Some (S n)
               | None => re_match p' s
               end
             else re_match p' s
         | [] => re_match p' s
         end) s
  end.

(** [re.sub(p, "", s)] for a pattern that matches no empty string: the
    leftmost match is deleted and the scan resumes after it.  [skip]
    counts the characters of the current match still to delete. *)
Fixpoint re_sub_go (p : list item) (skip : nat) (s : list ascii) : list ascii :=
  match s with
  | [] => []
  | c :: r =>
      match skip with
      | S k => re_sub_go p k r
      | O =>
          match re_match p s with
          | Some (S k) => re_sub_go p k r
          | _ => c :: re_sub_go p 0 r
          end
      end
  end.

Definition re_sub_suffix (p : list item) (s : list ascii) : list ascii :=
  re_sub_go p 0 s.

Definition lits (s : string) : list item := map Lit (chars s).

(** [\s*,?\s*] followed by the body of the suffix. *)
Definition suffix (body : list item) : list item :=
  Spaces :: Opt "," :: Spaces :: body.

Definition COMPANY_SUFFIXES : list (list item) :=
  [ suffix (lits "inc" ++ [Opt "."]);
    suffix (lits "llc" ++ [Opt "."]);
    suffix (lits "ltd" ++ [Opt "."]);
    suffix (lits "corp" ++ [Opt "."]);
    suffix (lits "corporation");
    suffix (lits "incorporated");
    suffix (lits "limited");
    suffix [Lit "l"; Opt "."; Lit "l"; Opt "."; Lit "c"; Opt "."];
    suffix (lits "company");
    suffix (lits "co" ++ [Opt "."]);
    suffix (lits "holding" ++ [Opt "s"]);
    suffix (lits "group");
    suffix (lits "partner" ++ [Opt "s"]);
    suffix (lits "venture" ++ [Opt "s"]);
    suffix (lits "capital");
    suffix (lits "fund");
    suffix (lits "lp");
    suffix [Lit "l"; Opt "."; Lit "p"; Opt "."] ]%char.

Definition FUZZY_MATCH_THRESHOLD : Q := 85.

(** [re.sub(r'[^\w\s]', '', s)]. *)
Definition remove_special (s : list ascii) : list ascii :=
  filter (λ c, is_word c || is_space c) s.

(** [re.sub(r'\s+', ' ', s)]: [in_run] tells whether the previous
    character was white space. *)
Fixpoint collapse_spaces (in_run : bool) (s : list ascii) : list ascii :=
  match s with
  | [] => []
  | c :: r =>
      if is_space c then
        if in_run then collapse_spaces true r
        else " "%char :: collapse_spaces true r
      else c :: collapse_spaces false r
  end.

Definition normalize_chars (name : list ascii) : list ascii :=
  let normalized := strip (lower name) in
  let normalized :=
    foldl (λ acc pattern, re_sub_suffix pattern acc) normalized COMPANY_SUFFIXES in
  let normalized := remove_special normalized in
  strip (collapse_spaces false normalized).

(** [_normalize_company_name]: a falsy name gives the empty string; a
    truthy value that is not a string has no [lower] method. *)
Definition _normalize_company_name (name : value) : result string :=
  if negb (truthy name) then Ok ""
  else
    match name with
    | VStr s => Ok (of_chars (normalize_chars (chars s)))
    | _ => Raise AttributeError
    end.

(** ** Group merge *)

Definition source_priority : gmap string nat :=
  {[ "SEC Form D" := 0%nat;
     "TechCrunch" := 1%nat;
     "VentureBeat" := 2%nat;
     "CB Insights" := 3%nat;
     "PitchBook" := 4%nat;
     "Founder Collective Portfolio" := 5%nat ]}.

(** [source_priority.get(v, 999)]: a list is not hashable. *)
Definition priority_get (v : value) : result nat :=
  match v with
  | VStr s => Ok (default 999%nat (source_priority !! s))
  | VAtom _ => Ok 999%nat
  | VList _ => Raise TypeError
  end.

(** The sort key [lambda x: source_priority.get(x.get("source", ""), 999)]. *)
Definition sort_key (x : record) : result nat :=
  priority_get (get_or x "source" (VStr "")).

(** Insertion of [x] in front of the first element whose key is not
    smaller: elements with equal keys keep their relative order. *)
Fixpoint insert_keyed {A} (k : nat) (x : A) (l : list (nat * A))
  : list (nat * A) :=
  match l with
  | [] => [(k, x)]
  | (k', y) :: r =>
      if (k <=? k')%nat then (k, x) :: l else (k', y) :: insert_keyed k x r
  end.

Definition sort_keyed {A} (l : list (nat * A)) : list (nat * A) :=
  foldr (λ e acc, insert_keyed e.1 e.2 acc) [] l.

Definition keyed (x : record) : result (nat * record) :=
  k ← sort_key x; Ok (k, x).

(** [sorted(group, key=...)]: the keys are computed first, then the
    records are sorted by key, stably. *)
Definition sorted_by_priority (group : list record) : result (list record) :=
  ks ← mapM_result keyed group; Ok (map snd (sort_keyed ks)).

(** [set(...)] needs hashable elements. *)
Definition hashable (v : value) : result atom :=
  match v with
  | VAtom a => Ok a
  | VList _ => Raise TypeError
  end.

(** [list(set(c.get("source", "") for c in group if c.get("source")))].
    Python leaves the order of the list open; the model keeps one
    occurrence of each value, in the order of [remove_dups]. *)
Definition all_sources (group : list record) : result (list atom) :=
  srcs ← mapM_result hashable
         (map (λ c, get_or c "source" (VStr ""))
              (filter (λ c, truthy (get c "source") = true) group));
  Ok (remove_dups srcs).

(** [if not merged.get(k) and company.get(k): merged[k] = company[k]]. *)
Definition fill (k : string) (company merged : record) : record :=
  if negb (truthy (get merged k)) && truthy (get company k)
  then <[k := get company k]> merged
  else merged.

(** The elements of [set(v)], and the items of [for inv in v]: a string
    yields its characters, [None] and integers are not iterable. *)
Definition elements_of (v : value) : result (list atom) :=
  match v with
  | VList l => Ok l
  | VStr s => Ok (map (λ c, AStr (String c "")) (chars s))
  | VAtom _ => Raise TypeError
  end.

(** [merged.setdefault("investors", []).append(inv)]. *)
Definition append_investor (merged : record) (inv : atom) : result record :=
  match merged !! "investors" with
  | None => Ok (<["investors" := VList [inv]]> merged)
  | Some (VList l) => Ok (<["investors" := VList (l ++ [inv])]> merged)
  | Some (VAtom _) => Raise AttributeError
  end.

Definition investor_step (st : record * list atom) (inv : atom)
  : result (record * list atom) :=
  let '(merged, existing_investors) := st in
  if atom_truthy inv && negb (bool_decide (inv ∈ existing_investors)) then
    merged' ← append_investor merged inv;
    Ok (merged', inv :: existing_investors)
  else Ok st.

Definition merge_investors (company merged : record) : result record :=
  existing_investors ← elements_of (get_or merged "investors" (VList []));
  let new_investors := get_or company "investors" (VList []) in
  if truthy new_investors then
    invs ← elements_of new_investors;
    st ← foldM_result investor_step (merged, existing_investors) invs;
    Ok st.1
  else Ok merged.

Definition merge_funding_round (company merged : record) : record :=
  if bool_decide (get merged "funding_round"
                    ∈ [VStr "Unknown"; VStr "Equity"; VNone])
     && truthy (get company "funding_round")
  then
    if negb (bool_decide (get company "funding_round"
                            ∈ [VStr "Unknown"; VNone]))
    then <["funding_round" := get company "funding_round"]> merged
    else merged
  else merged.

(** The body of the loop [for company in sorted_group[1:]]. *)
Definition merge_step (merged company : record) : result record :=
  let merged := fill "company_website" company merged in
  let merged := fill "description" company merged in
  merged ← merge_investors company merged;
  let merged := merge_funding_round company merged in
  let merged := fill "industry" company merged in
  let merged := fill "location" company merged in
  let merged := fill "ceo_name" company merged in
  let merged := fill "funding_amount" company merged in
  Ok merged.

(** [_merge_company_group]; [None] is Python's [None]. *)
Definition _merge_company_group (group : list record) : result (option record) :=
  match group with
  | [] => Ok None
  | [c] => Ok (Some c)
  | _ =>
      sorted_group ← sorted_by_priority group;
      match sorted_group with
      | [] => Raise IndexError
      | first :: rest =>
          srcs ← all_sources group;
          let merged := <["sources" := VList srcs]> first in
          merged ← foldM_result merge_step merged rest;
          Ok (Some merged)
      end
  end.

(** ** Statistics *)

Record dedup_stats := {
  original_count : Z;
  deduplicated_count : Z;
  duplicates_removed : Z;
  companies_with_merged_sources : Z;
  original_by_source : list (atom * Z)
}.

(** [d[source] = d.get(source, 0) + 1] on an insertion-ordered dictionary. *)
Fixpoint count_source (source : atom) (d : list (atom * Z)) : list (atom * Z) :=
  match d with
  | [] => [(source, 1%Z)]
  | (k, n) :: r =>
      if decide (k = source) then (k, (n + 1)%Z) :: r
      else (k, n) :: count_source source r
  end.

(** [len(v)]. *)
Definition len (v : value) : result nat :=
  match v with
  | VList l => Ok (length l)
  | VStr s => Ok (String.length s)
  | VAtom _ => Raise TypeError
  end.

Definition has_merged_sources (c : record) : result bool :=
  n ← len (get_or c "sources" (VList [])); Ok (1 <? n)%nat.

Definition get_dedup_stats (original deduped : list record) : result dedup_stats :=
  let original_count := Z.of_nat (length original) in
  let deduped_count := Z.of_nat (length deduped) in
  by_source ← foldM_result
      (λ d c, source ← hashable (get_or c "source" (VStr "Unknown"));
              Ok (count_source source d))
      [] original;
  flags ← mapM_result has_merged_sources deduped;
  let merged_count := Z.of_nat (length (filter (λ b, b = true) flags)) in
  Ok {| original_count := original_count;
        deduplicated_count := deduped_count;
        duplicates_removed := (original_count - deduped_count)%Z;
        companies_with_merged_sources := merged_count;
        original_by_source := by_source |}.

(** ** Similarity and grouping *)

(** [_normalize_company_name(c.get("company_name", ""))]. *)
Definition normalized_name (c : record) : result string :=
  _normalize_company_name (get_or c "company_name" (VStr "")).

Definition normalized_pair (c : record) : result (string * record) :=
  n ← normalized_name c; Ok (n, c).

Section Engine.

(** [fuzz.token_sort_ratio] of the [rapidfuzz] library, which the
    repository imports and does not define. *)
Variable token_sort_ratio : string → string → Q.

Definition _calculate_similarity (name1 name2 : string) : Q :=
  if String.eqb name1 "" || String.eqb name2 "" then 0
  else if String.eqb name1 name2 then 100
  else token_sort_ratio name1 name2.

(** [similarity >= FUZZY_MATCH_THRESHOLD]. *)
Definition similar (name1 name2 : string) : bool :=
  Qle_bool FUZZY_MATCH_THRESHOLD (_calculate_similarity name1 name2).

(** [enumerate(l)], counting from [start]. *)
Fixpoint enumerate_from {A} (start : nat) (l : list A) : list (nat * A) :=
  match l with
  | [] => []
  | x :: xs => (start, x) :: enumerate_from (S start) xs
  end.

Definition enumerate {A} (l : list A) : list (nat * A) := enumerate_from 0 l.

(** One iteration of the inner loop of [_group_similar_companies]. *)
Definition scan_step (norm_name_i : string)
    (st : gset nat * list record) (e : nat * (string * record))
  : gset nat * list record :=
  let '(used, group) := st in
  let '(j, (norm_name_j, company_j)) := e in
  if bool_decide (j ∈ used) then st
  else if similar norm_name_i norm_name_j
       then ({[j]} ∪ used, group ++ [company_j])
       else st.

(** One iteration of the outer loop. *)
Definition group_step (normalized_names : list (string * record))
    (st : gset nat * list (list record)) (e : nat * (string * record))
  : gset nat * list (list record) :=
  let '(used, groups) := st in
  let '(i, (norm_name_i, company_i)) := e in
  if bool_decide (i ∈ used) then st
  else
    let '(used', group) :=
      foldl (scan_step norm_name_i) ({[i]} ∪ used, [company_i])
            (enumerate normalized_names) in
    (used', groups ++ [group]).

Definition group_loop (normalized_names : list (string * record))
  : list (list record) :=
  snd (foldl (group_step normalized_names) (∅, []) (enumerate normalized_names)).

Definition _group_similar_companies (companies : list record)
  : result (list (list record)) :=
  match companies with
  | [] => Ok []
  | _ =>
      normalized_names ← mapM_result normalized_pair companies;
      Ok (group_loop normalized_names)
  end.

(** [if merged:] on the result of a merge: [None] and the empty
    dictionary are falsy. *)
Definition keep_merged (merged : option record) : list record :=
  match merged with
  | Some m => if decide (m = ∅) then [] else [m]
  | None => []
  end.

(** [deduplicate_companies], without its progress messages. *)
Definition deduplicate_companies (companies : list record)
  : result (list record) :=
  match companies with
  | [] => Ok []
  | _ =>
      grouped ← _group_similar_companies companies;
      foldM_result
        (λ deduplicated group,
           merged ← _merge_company_group group;
           Ok (deduplicated ++ keep_merged merged))
        [] grouped
  end.

End Engine.

(** ** Token sort ratio *)

Fixpoint split_go (cur : list ascii) (s : list ascii) : list (list ascii) :=
  match s with
  | [] => match cur with [] => [] | _ => [rev cur] end
  | c :: r =>
      if is_space c then
        match cur with
        | [] => split_go [] r
        | _ => rev cur :: split_go [] r
        end
      else split_go (c :: cur) r
  end.

(** [s.split()]: the maximal runs of characters that are not white space. *)
Definition split (s : string) : list string :=
  map of_chars (split_go [] (chars s)).

(** [" ".join(tokens)]. *)
Fixpoint join (tokens : list string) : string :=
  match tokens with
  | [] => ""
  | [t] => t
  | t :: r => t +:+ " " +:+ join r
  end.

(** The tokens of [s], sorted lexicographically and joined again. *)
Definition sorted_tokens (s : string) : string :=
  join (merge_sort String.le (split s)).

(** Levenshtein edit distance: the least number of insertions, deletions
    and substitutions of one character that turn [s] into [t]. *)
Fixpoint levenshtein (s t : list ascii) : nat :=
  match s with
  | [] => length t
  | a :: s' =>
      (fix inner (t : list ascii) : nat :=
         match t with
         | [] => length s
         | b :: t' =>
             Nat.min (S (levenshtein s' t))
               (Nat.min (S (inner t'))
                  ((if Ascii.eqb a b then 0 else 1) + levenshtein s' t'))%nat
         end) t
  end.

Definition clamp (x : Q) : Q := Qmax 0 (Qmin 100 x).

Definition Q_of_nat (n : nat) : Q := inject_Z (Z.of_nat n).

(** Modelled from the spec: [fuzz.token_sort_ratio] belongs to the
    [rapidfuzz] library, which is not part of the repository.  The
    specification gives the score as 100 × (1 − d / (l1 + l2)), clamped to
    [0, 100], where d is the Levenshtein distance between the two
    sorted-token strings and l1, l2 are their lengths. *)
Definition token_sort_ratio (s1 s2 : string) : Q :=
  let a := chars (sorted_tokens s1) in
  let b := chars (sorted_tokens s2) in
  clamp (100 * (1 - Q_of_nat (levenshtein a b) / Q_of_nat (length a + length b))).

(** The module's own test data. *)
Definition test_companies : list record :=
  [ {[ "company_name" := VStr "OpenAI, Inc."; "source" := VStr "SEC Form D";
       "funding_amount" := VInt 1000000 ]};
    {[ "company_name" := VStr "OpenAI"; "source" := VStr "TechCrunch";
       "funding_amount" := VInt 1000000; "description" := VStr "AI company" ]};
    {[ "company_name" := VStr "Open AI LLC"; "source" := VStr "VentureBeat";
       "investors" := VList [AStr "Microsoft"] ]};
    {[ "company_name" := VStr "Stripe, Inc."; "source" := VStr "SEC Form D" ]};
    {[ "company_name" := VStr "Stripe"; "source" := VStr "CB Insights";
       "funding_round" := VStr "Series I" ]} ].

(** Three records whose names match pairwise along the chain only. *)
Definition A0 : record :=
  {[ "company_name" := VStr "Nova"; "source" := VStr "TechCrunch" ]}.
Definition B0 : record :=
  {[ "company_name" := VStr "Novas"; "source" := VStr "VentureBeat" ]}.
Definition C0 : record :=
  {[ "company_name" := VStr "Novast"; "source" := VStr "PitchBook" ]}.

(** ** Vocabulary of the properties *)

(** A group made of a seed record followed by records whose normalised
    names match the seed's. *)
Definition good_group (ratio : string → string → Q)
    (names : list (string * record)) (g : list record) : Prop :=
  ∃ ni ci rest,
    g = ci :: rest
    ∧ (ni, ci) ∈ names
    ∧ ∀ c, c ∈ rest → ∃ nj, (nj, c) ∈ names ∧ similar ratio ni nj = true.

(** The invariant of the outer loop of [_group_similar_companies]: every
    group is anchored to its seed, and every marked record is in a group. *)
Definition grouping_inv (ratio : string → string → Q)
    (names : list (string * record))
    (st : gset nat * list (list record)) : Prop :=
  (∀ g, g ∈ st.2 → good_group ratio names g)
  ∧ (∀ j, j ∈ st.1 →
       ∃ n c g, (j, (n, c)) ∈ enumerate names ∧ g ∈ st.2 ∧ c ∈ g).

(** The records whose names can be normalised: the name is absent, falsy
    or a string. *)
Definition names_normalise (companies : list record) : Prop :=
  ∀ r, r ∈ companies → ∃ n, normalized_name r = Ok n.

(** Two records without a usable name, and a named one. *)
Definition unnamed_companies : list record :=
  [ {[ "source" := VStr "TechCrunch" ]};
    {[ "company_name" := VStr "Nova"; "source" := VStr "SEC Form D" ]};
    {[ "company_name" := VStr ""; "source" := VStr "PitchBook" ]} ].

(** The fields filled only when missing. *)
Definition fill_keys : list string :=
  [ "company_website"; "description"; "industry"; "location"; "ceo_name";
    "funding_amount" ].

(** A funding round that a later record may replace: generic or missing. *)
Definition replaceable (v : value) : bool :=
  bool_decide (v ∈ [VStr "Unknown"; VStr "Equity"; VNone]).

(** A funding round that may replace a generic one: present, not empty
    and not ["Unknown"]. *)
Definition specific (v : value) : bool :=
  truthy v && negb (bool_decide (v = VStr "Unknown")).

(** The investors of a record, as a list. *)
Definition investors_of (r : record) : list atom :=
  match r !! "investors" with
  | Some (VList l) => l
  | _ => []
  end.

(** The elements of [l] that are not in [seen], each kept at its first
    occurrence. *)
Fixpoint dedup_first (seen : list atom) (l : list atom) : list atom :=
  match l with
  | [] => []
  | x :: r =>
      if bool_decide (x ∈ seen) then dedup_first seen r
      else x :: dedup_first (x :: seen) r
  end.

(** Records on which a merge raises no exception: the source is hashable
    and the investors, when present, are a list. *)
Definition investors_ok (r : record) : Prop :=
  r !! "investors" = None ∨ ∃ l, r !! "investors" = Some (VList l).

Definition mergeable (r : record) : Prop :=
  (∃ a, get_or r "source" (VStr "") = VAtom a) ∧ investors_ok r.

(** The priority of a record's source, 999 for an unrecognised one. *)
Definition priority (r : record) : nat :=
  match get_or r "source" (VStr "") with
  | VStr s => default 999%nat (source_priority !! s)
  | _ => 999%nat
  end.

(** The first record of least priority number. *)
Fixpoint highest_priority (group : list record) : option record :=
  match group with
  | [] => None
  | x :: r =>
      match highest_priority r with
      | Some y => if (priority x <=? priority y)%nat then Some x else Some y
      | None => Some x
      end
  end.

(** The group in priority order, as [sorted] returns it when every source
    is hashable. *)
Definition sorted_group (group : list record) : list record :=
  map snd (sort_keyed (map (λ x, (priority x, x)) group)).

(** The first of the records that has a non-empty value for the field. *)
Fixpoint first_filled (k : string) (rest : list record) : option record :=
  match rest with
  | [] => None
  | c :: r => if truthy (get c k) then Some c else first_filled k r
  end.

(** The non-empty source values of the records of a group, in order. *)
Definition truthy_sources (group : list record) : list atom :=
  omap (λ c : record,
          match c !! "source" with
          | Some (VAtom a) => if atom_truthy a then Some a else None
          | _ => None
          end) group.

(** The two records of the specification's source-priority test. *)
Definition foo_techcrunch : record :=
  {[ "company_name" := VStr "Foo"; "source" := VStr "TechCrunch";
     "industry" := VStr "X" ]}.
Definition foo_sec : record :=
  {[ "company_name" := VStr "Foo Inc"; "source" := VStr "SEC Form D";
     "industry" := VStr "" ]}.

(** Records of the funding-round tests. *)
Definition round_equity : record :=
  {[ "company_name" := VStr "Foo Inc"; "source" := VStr "SEC Form D";
     "funding_round" := VStr "Equity" ]}.
Definition round_series_a : record :=
  {[ "company_name" := VStr "Foo"; "source" := VStr "TechCrunch";
     "funding_round" := VStr "Series A" ]}.
Definition round_series_b : record :=
  {[ "company_name" := VStr "Foo"; "source" := VStr "VentureBeat";
     "funding_round" := VStr "Series B" ]}.
Definition round_empty : record :=
  {[ "company_name" := VStr "Foo"; "source" := VStr "TechCrunch";
     "funding_round" := VStr "" ]}.

(** A filing without website or amount and a news record that has both. *)
Definition bare_filing : record :=
  {[ "company_name" := VStr "Foo Inc"; "source" := VStr "SEC Form D";
     "funding_amount" := VInt 0; "company_website" := VNone;
     "location" := VStr "Austin" ]}.
Definition rich_news : record :=
  {[ "company_name" := VStr "Foo"; "source" := VStr "TechCrunch";
     "funding_amount" := VInt 500000;
     "company_website" := VStr "https://foo.example";
     "location" := VStr "Boston" ]}.

(** Records of the investor tests. *)
Definition investors_ab : record :=
  {[ "company_name" := VStr "Foo Inc"; "source" := VStr "SEC Form D";
     "investors" := VList [AStr "A"; AStr "B"] ]}.
Definition investors_bc : record :=
  {[ "company_name" := VStr "Foo"; "source" := VStr "TechCrunch";
     "investors" := VList [AStr "B"; AStr "C"] ]}.
Definition investors_aa : record :=
  {[ "company_name" := VStr "Foo Inc"; "source" := VStr "SEC Form D";
     "investors" := VList [AStr "A"; AStr "A"] ]}.

(** Two reports of one company by the same source. *)
Definition same_source_a : record :=
  {[ "company_name" := VStr "Foo"; "source" := VStr "TechCrunch" ]}.
Definition same_source_b : record :=
  {[ "company_name" := VStr "Foo Inc"; "source" := VStr "TechCrunch" ]}.

(** What a group contributes to the output of [deduplicate_companies]. *)
Definition merged_of_group (group : list record) : list record :=
  match _merge_company_group group with
  | Ok merged => keep_merged merged
  | Raise _ => []
  end.

(** A group with two or more distinct non-empty source values. *)
Definition multi_source (group : list record) : bool :=
  (1 <? length (remove_dups (truthy_sources group)))%nat.

(** A record counted by [companies_with_merged_sources]. *)
Definition merged_flag (c : record) : bool :=
  match c !! "sources" with
  | Some (VList l) => (1 <? length l)%nat
  | _ => false
  end.

Definition sources_ok (c : record) : Prop :=
  c !! "sources" = None ∨ ∃ l, c !! "sources" = Some (VList l).

(** Raw records, as the source adapters produce them: they can be
    normalised and merged, and carry no sources field. *)
Definition raw_records (companies : list record) : Prop :=
  names_normalise companies
  ∧ Forall mergeable companies
  ∧ Forall (λ r : record, r !! "sources" = None) companies.

(** A well-formed raw record: its name is a string that is not empty
    after trimming. *)
Definition well_formed (r : record) : Prop :=
  ∃ s, r !! "company_name" = Some (VStr s) ∧ strip (chars s) ≠ [].

(** ** Vocabulary of the grouping properties *)

(** An input record with its index and its normalised name, as the loops
    of [_group_similar_companies] see it. *)
Abbreviation entry := (nat * (string * record))%type.

Definition name_of (e : entry) : string := e.2.1.
Definition record_of (e : entry) : record := e.2.2.

(** The unmarked entries whose names match the seed name, in scan order. *)
Definition members (ratio : string → string → Q) (es : list entry)
    (used : gset nat) (seed_name : string) : list entry :=
  filter (λ e : entry, e.1 ∉ used ∧ similar ratio seed_name (name_of e) = true) es.

(** The state of the outer loop after the entries [pre] of [es], in
    terms of the groups of entries [gs] behind the groups of records. *)
Definition grouping_state (ratio : string → string → Q) (es pre : list entry)
    (gs : list (list entry)) (st : gset nat * list (list record)) : Prop :=
  st.2 = map (map record_of) gs
  ∧ NoDup (concat gs)
  ∧ (∀ e, e ∈ concat gs ↔ e ∈ es ∧ e.1 ∈ st.1)
  ∧ (∀ e, e ∈ pre → e.1 ∈ st.1)
  ∧ Forall (λ g, g ≠ [] ∧ g `sublist_of` es) gs
  ∧ omap head gs `sublist_of` pre
  ∧ (∀ a b, a ∈ es → b ∈ es → name_of a = name_of b → name_of a ≠ "" →
       a.1 ∈ st.1 → ∃ g, g ∈ gs ∧ a ∈ g ∧ b ∈ g)
  ∧ (∀ g s e, g ∈ gs → head g = Some s → e ∈ es →
       similar ratio (name_of s) (name_of e) = true → e.1 ∈ st.1)
  ∧ (∀ k1 k2 g1 g2 s e, (k1 < k2)%nat → gs !! k1 = Some g1 → gs !! k2 = Some g2 →
       head g1 = Some s → e ∈ g2 →
       similar ratio (name_of s) (name_of e) = false)
  ∧ Forall (λ g, ∃ s rest, g = s :: rest
                 ∧ ∀ e, e ∈ rest → similar ratio (name_of s) (name_of e) = true) gs.

(** ** Vocabulary of the statistics properties *)

(** [c.get("source", "Unknown")], the key under which a record is counted. *)
Definition source_key (c : record) : value := get_or c "source" (VStr "Unknown").

(** [d.get(a, 0)] on the dictionary of counts. *)
Fixpoint count_of (a : atom) (d : list (atom * Z)) : Z :=
  match d with
  | [] => 0
  | (k, n) :: r => if decide (k = a) then n else count_of a r
  end.

(** The number of records counted under the key [a]. *)
Definition occurrences (a : atom) (original : list record) : nat :=
  length (filter (λ c, source_key c = VAtom a) original).

(** Values that have a length: lists and strings. *)
Definition sized (v : value) : Prop :=
  match v with
  | VList _ | VStr _ => True
  | _ => False
  end.

(** The inputs on which [get_dedup_stats] raises no exception. *)
Definition countable_inputs (original deduped : list record) : Prop :=
  Forall (λ c, ∃ a, source_key c = VAtom a) original
  ∧ Forall (λ c, sized (get_or c "sources" (VList []))) deduped.

(** The statistics of the two reports of one source, with nothing kept. *)
Definition same_source_stats : dedup_stats :=
  {| original_count := 2;
     deduplicated_count := 0;
     duplicates_removed := 2;
     companies_with_merged_sources := 0;
     original_by_source := [(AStr "TechCrunch", 2%Z)] |}.

(** A record whose source is a list, which no dictionary can use as key. *)
Definition list_source : record :=
  {[ "company_name" := VStr "Foo"; "source" := VList [AStr "TechCrunch"] ]}.

(** A record whose name is a number. *)
Definition number_name : record :=
  {[ "company_name" := VInt 42; "source" := VStr "TechCrunch" ]}.

(** ** Vocabulary of the further merge properties *)

(** A funding round that settles the merge: specific and not generic. *)
Definition decisive (v : value) : bool := specific v && negb (replaceable v).

(** The funding round a merge ends with, when it starts from [first] and
    goes through [rest]. *)
Definition resolved_round (first : record) (rest : list record) : option value :=
  if replaceable (get first "funding_round") then
    match find (λ c : record, decisive (get c "funding_round")) rest with
    | Some c => c !! "funding_round"
    | None =>
        if existsb (λ c : record,
                      bool_decide (get c "funding_round" = VStr "Equity")) rest
        then Some (VStr "Equity")
        else first !! "funding_round"
    end
  else first !! "funding_round".

(** A filing and two news records with generic and specific rounds. *)
Definition round_unknown : record :=
  {[ "company_name" := VStr "Foo Inc"; "source" := VStr "SEC Form D";
     "funding_round" := VStr "Unknown" ]}.
Definition round_news_equity : record :=
  {[ "company_name" := VStr "Foo"; "source" := VStr "TechCrunch";
     "funding_round" := VStr "Equity" ]}.

(** ** Vocabulary of the normalisation properties *)

Definition is_upper (c : ascii) : bool :=
  let n := nat_of_ascii c in ((65 <=? n) && (n <=? 90))%nat.

(** The characters of a normalised name: lowercase letters, digits, the
    underscore and the space. *)
Definition name_char (c : ascii) : bool :=
  (is_word c && negb (is_upper c)) || Ascii.eqb c " ".

(** Names written in ASCII, on which [str.lower], [str.strip] and the
    classes [\w] and [\s] are the ones defined above. *)
Definition ascii_name (name : value) : Prop :=
  ∀ s, name = VStr s → Forall (λ c, (nat_of_ascii c < 128)%nat) (chars s).

(** * Properties *)

(** ** The error monad *)

Lemma bind_Ok {A B} (a : A) (f : A → result B) : Ok a ≫= f = f a.
Proof. reflexivity. Qed.

Lemma bind_Raise {A B} (e : exn) (f : A → result B) : Raise e ≫= f = Raise e.
Proof. reflexivity. Qed.

Lemma bind_Ok_inv {A B} (m : result A) (f : A → result B) (b : B) :
  m ≫= f = Ok b ↔ ∃ a, m = Ok a ∧ f a = Ok b.
Proof.
  destruct m as [a|e]; simpl.
  - split; [by exists a | by intros (? & [= <-] & ?)].
  - split; [done | by intros (? & ? & _)].
Qed.

(** A property of the value of a computation that is known to succeed;
    on concrete inputs the premise is settled by evaluation. *)
Lemma result_holds {A} (m : result A) (P : A → Prop) :
  match m with Ok a => P a | Raise _ => False end → ∃ a, m = Ok a ∧ P a.
Proof. destruct m as [a|e]; [by exists a | done]. Qed.

Lemma result_holds_Some {A} (m : result (option A)) (P : A → Prop) :
  match m with Ok (Some a) => P a | _ => False end →
  ∃ a, m = Ok (Some a) ∧ P a.
Proof. destruct m as [[a|]|e]; [by exists a | done | done]. Qed.

Lemma result_holds_single {A} (m : result (list A)) (P : A → Prop) :
  match m with Ok [a] => P a | _ => False end → ∃ a, m = Ok [a] ∧ P a.
Proof. destruct m as [[|a [|??]]|e]; [done | by exists a | done | done]. Qed.

Lemma mapM_result_cons {A B} (f : A → result B) (x : A) (l : list A) :
  mapM_result f (x :: l)
  = f x ≫= λ y, mapM_result f l ≫= λ ys, Ok (y :: ys).
Proof. reflexivity. Qed.

Lemma foldM_result_cons {A B} (f : B → A → result B) (b : B) (x : A)
    (l : list A) :
  foldM_result f b (x :: l) = f b x ≫= λ b', foldM_result f b' l.
Proof. reflexivity. Qed.

Lemma foldM_result_app {A B} (f : B → A → result B) (b : B) (l1 l2 : list A) :
  foldM_result f b (l1 ++ l2)
  = foldM_result f b l1 ≫= λ b', foldM_result f b' l2.
Proof.
  revert b. induction l1 as [|x l1 IH]; intros b; [done|].
  simpl. destruct (f b x); simpl; [apply IH | done].
Qed.

(** ** The model on sample inputs *)

Example normalize_openai_inc :
  _normalize_company_name (VStr "OpenAI, Inc.") = Ok "openai".
Proof. reflexivity. Qed.

Example normalize_openai_llc :
  _normalize_company_name (VStr "Open AI LLC") = Ok "open ai".
Proof. reflexivity. Qed.

Example normalize_zinc_co_ltd :
  _normalize_company_name (VStr "  Zinc & Co., Ltd. ") = Ok "zinc".
Proof. reflexivity. Qed.

(** The suffix patterns are not anchored at a word boundary. *)
Example normalize_zinc :
  _normalize_company_name (VStr "Zinc") = Ok "z".
Proof. reflexivity. Qed.

Example normalize_absent : _normalize_company_name VNone = Ok "".
Proof. reflexivity. Qed.

Example normalize_int : _normalize_company_name (VInt 7) = Raise AttributeError.
Proof. reflexivity. Qed.

Example split_example : split "  open   ai labs " = ["open"; "ai"; "labs"].
Proof. reflexivity. Qed.

Example sorted_tokens_example : sorted_tokens "open ai  labs" = "ai labs open".
Proof. vm_compute. reflexivity. Qed.

Example levenshtein_kitten :
  levenshtein (chars "kitten") (chars "sitting") = 3%nat.
Proof. vm_compute. reflexivity. Qed.

(** The sorted-token forms are "openai" and "ai open", at distance 5. *)
Example ratio_openai :
  token_sort_ratio "openai" "open ai" == 800 # 13.
Proof. vm_compute. reflexivity. Qed.

(** ** Similarity *)

Lemma clamp_range (x : Q) : (0 <= clamp x <= 100)%Q.
Proof.
  unfold clamp. split.
  - apply Q.le_max_l.
  - apply Q.max_lub; [discriminate | apply Q.le_min_l].
Qed.

Section SimilarityFacts.

Variable ratio : string → string → Q.

Lemma similarity_empty_l (b : string) : _calculate_similarity ratio "" b = 0%Q.
Proof. reflexivity. Qed.

Lemma similarity_empty_r (a : string) : _calculate_similarity ratio a "" = 0%Q.
Proof. unfold _calculate_similarity. by rewrite orb_true_r. Qed.

Lemma similarity_equal (a : string) :
  a ≠ "" → _calculate_similarity ratio a a = 100%Q.
Proof.
  intros Ha. unfold _calculate_similarity.
  apply String.eqb_neq in Ha. by rewrite Ha, String.eqb_refl.
Qed.

Lemma similarity_other (a b : string) :
  a ≠ "" → b ≠ "" → a ≠ b → _calculate_similarity ratio a b = ratio a b.
Proof.
  intros Ha Hb Hab. unfold _calculate_similarity.
  apply String.eqb_neq in Ha, Hb, Hab. by rewrite Ha, Hb, Hab.
Qed.

Lemma similar_empty_l (b : string) : similar ratio "" b = false.
Proof. reflexivity. Qed.

Lemma similar_empty_r (a : string) : similar ratio a "" = false.
Proof. unfold similar. by rewrite similarity_empty_r. Qed.

End SimilarityFacts.

(** The sorted tokens do not depend on the order of the tokens. *)
Lemma sorted_tokens_order_insensitive (a a' : string) :
  split a ≡ₚ split a' → sorted_tokens a = sorted_tokens a'.
Proof.
  intros Hp. unfold sorted_tokens. f_equal.
  apply (Sorted_unique String.le).
  - apply Sorted_merge_sort; apply _.
  - apply Sorted_merge_sort; apply _.
  - by rewrite !merge_sort_Permutation.
Qed.

Lemma token_sort_ratio_order_insensitive (a a' b b' : string) :
  split a ≡ₚ split a' → split b ≡ₚ split b' →
  token_sort_ratio a b = token_sort_ratio a' b'.
Proof.
  intros Ha Hb. unfold token_sort_ratio.
  by rewrite (sorted_tokens_order_insensitive a a' Ha),
             (sorted_tokens_order_insensitive b b' Hb).
Qed.

(** C2.  The similarity score, with the token sort ratio given by the
    specification's formula, lies between 0 and 100; it is 0 when one of
    the two normalised names is empty; it is 100 when the two names are
    equal (and not empty, the first rule taking precedence); in all other
    cases it is 100 × (1 − d / (l1 + l2)) clamped to [0, 100], where d is
    the Levenshtein distance between the sorted-token forms of the names
    and l1, l2 are their lengths, and the order of the tokens in either
    name does not change it. *)
Theorem similarity_contract (a b : string) :
  let s := _calculate_similarity token_sort_ratio a b in
  let ta := chars (sorted_tokens a) in
  let tb := chars (sorted_tokens b) in
  (0 <= s <= 100)%Q
  ∧ (a = "" ∨ b = "" → s = 0%Q)
  ∧ (a ≠ "" → b ≠ "" → a = b → s = 100%Q)
  ∧ (a ≠ "" → b ≠ "" → a ≠ b →
     s = clamp (100 * (1 - Q_of_nat (levenshtein ta tb)
                           / Q_of_nat (length ta + length tb)))
     ∧ ∀ a' b', split a ≡ₚ split a' → split b ≡ₚ split b' →
                token_sort_ratio a' b' = s).
Proof.
  cbv zeta. split; [|split_and!].
  - unfold _calculate_similarity.
    destruct (String.eqb a "" || String.eqb b ""); [done|].
    destruct (String.eqb a b); [done|]. apply clamp_range.
  - intros [->| ->]; [apply similarity_empty_l | apply similarity_empty_r].
  - intros Ha _ <-. by apply similarity_equal.
  - intros Ha Hb Hab. rewrite similarity_other by done. split; [done|].
    intros a' b' Ha' Hb'. symmetry. by apply token_sort_ratio_order_insensitive.
Qed.

(** ** Grouping *)

Lemma similar_true (ratio : string → string → Q) (a b : string) :
  similar ratio a b = true ↔ (85 <= _calculate_similarity ratio a b)%Q.
Proof. apply Qle_bool_iff. Qed.

Lemma similar_false (ratio : string → string → Q) (a b : string) :
  similar ratio a b = false ↔ (_calculate_similarity ratio a b < 85)%Q.
Proof.
  rewrite <- not_true_iff_false, similar_true. split.
  - apply Qnot_le_lt.
  - apply Qlt_not_le.
Qed.

(** Evaluates the membership tests of the used-marker set on concrete
    indices. *)
Ltac used_marker :=
  repeat match goal with
    | |- context [bool_decide (?i ∈ ?s)] =>
        let b := eval vm_compute in (bool_decide (i ∈ s)) in
        change (bool_decide (i ∈ s)) with b
    end.

(** C1.  Grouping is anchored to the seed record: when A matches B, B
    matches C and A does not match C, the records [A, B, C] fall into the
    two groups [A, B] and [C]. *)
Theorem seed_anchored_grouping (ratio : string → string → Q)
    (A B C : record) (na nb nc : string) :
  normalized_name A = Ok na →
  normalized_name B = Ok nb →
  normalized_name C = Ok nc →
  (85 <= _calculate_similarity ratio na nb)%Q →
  (85 <= _calculate_similarity ratio nb nc)%Q →
  (_calculate_similarity ratio na nc < 85)%Q →
  _group_similar_companies ratio [A; B; C] = Ok [[A; B]; [C]].
Proof.
  intros HA HB HC Hab _ Hac.
  apply similar_true in Hab. apply similar_false in Hac.
  unfold _group_similar_companies, mapM_result, normalized_pair.
  rewrite HA, HB, HC. simpl. f_equal.
  unfold group_loop, enumerate. simpl.
  repeat (progress (used_marker; rewrite ?Hab, ?Hac; simpl)).
  reflexivity.
Qed.

Lemma seed_anchored_grouping_witness :
  (85 <= _calculate_similarity token_sort_ratio "nova" "novas")%Q
  ∧ (85 <= _calculate_similarity token_sort_ratio "novas" "novast")%Q
  ∧ (_calculate_similarity token_sort_ratio "nova" "novast" < 85)%Q
  ∧ _group_similar_companies token_sort_ratio [A0; B0; C0]
    = Ok [[A0; B0]; [C0]].
Proof.
  split_and!; [by vm_compute | by vm_compute | by vm_compute |].
  apply (seed_anchored_grouping token_sort_ratio A0 B0 C0
           "nova" "novas" "novast");
    by vm_compute.
Defined.

Section GroupingFacts.

Variable ratio : string → string → Q.

Lemma enumerate_from_lookup {A} (l : list A) (k j : nat) (x : A) :
  (j, x) ∈ enumerate_from k l ↔ (k ≤ j)%nat ∧ l !! (j - k)%nat = Some x.
Proof.
  revert k. induction l as [|y l IH]; intros k; simpl.
  - split; [by intros ?%elem_of_nil | by intros [_ ?]].
  - rewrite elem_of_cons, IH. split.
    + intros [[= -> ->] | [Hk Hl]].
      * by rewrite Nat.sub_diag.
      * split; [lia|]. by replace (j - k)%nat with (S (j - S k)) by lia.
    + intros [Hk Hl]. destruct (decide (j = k)) as [-> | Hne].
      * left. rewrite Nat.sub_diag in Hl. by inversion Hl.
      * right. split; [lia|].
        by replace (j - k)%nat with (S (j - S k)) in Hl by lia.
Qed.

Lemma enumerate_elem_of {A} (l : list A) (x : A) :
  x ∈ l ↔ ∃ j, (j, x) ∈ enumerate l.
Proof.
  unfold enumerate. rewrite list_elem_of_lookup. split.
  - intros [j Hj]. exists j. apply enumerate_from_lookup.
    by rewrite Nat.sub_0_r; split; [lia|].
  - intros [j [_ Hj]%enumerate_from_lookup]. rewrite Nat.sub_0_r in Hj. eauto.
Qed.

Lemma enumerate_covers {A} (l : list A) (j : nat) (x : A) :
  l !! j = Some x → (j, x) ∈ enumerate l.
Proof.
  intros Hj. apply enumerate_from_lookup. by rewrite Nat.sub_0_r; split; [lia|].
Qed.

(** The inner loop only appends records that match the seed, and it
    marks exactly the records it appends. *)
Lemma scan_spec (norm_name_i : string) (es : list (nat * (string * record)))
    (used : gset nat) (group : list record) :
  ∃ extras,
    (foldl (scan_step ratio norm_name_i) (used, group) es).2 = group ++ extras
    ∧ (∀ c, c ∈ extras →
         ∃ j nj, (j, (nj, c)) ∈ es ∧ similar ratio norm_name_i nj = true)
    ∧ used ⊆ (foldl (scan_step ratio norm_name_i) (used, group) es).1
    ∧ (∀ j, j ∈ (foldl (scan_step ratio norm_name_i) (used, group) es).1 →
         j ∈ used ∨ ∃ nj c, (j, (nj, c)) ∈ es ∧ c ∈ extras).
Proof.
  revert used group. induction es as [|[j [nj cj]] es IH]; intros used group.
  - exists []. simpl. rewrite app_nil_r. set_solver.
  - simpl. case_bool_decide as Hused; [|destruct (similar _ _ _) eqn:Hsim].
    + destruct (IH used group) as (extras & Hg & Hex & Hsub & Hin).
      exists extras. split_and!; [done| |done|].
      * intros c Hc. destruct (Hex c Hc) as (j' & nj' & ? & ?).
        exists j', nj'. set_solver.
      * intros j' Hj'. destruct (Hin j' Hj') as [?|(nj' & c & ? & ?)];
          [by left|right]. exists nj', c. set_solver.
    + destruct (IH ({[j]} ∪ used) (group ++ [cj]))
        as (extras & Hg & Hex & Hsub & Hin).
      exists (cj :: extras). split_and!.
      * by rewrite Hg, <- app_assoc.
      * intros c [-> | Hc]%elem_of_cons.
        -- exists j, nj. set_solver.
        -- destruct (Hex c Hc) as (j' & nj' & ? & ?). exists j', nj'. set_solver.
      * set_solver.
      * intros j' Hj'. destruct (Hin j' Hj') as [[?%elem_of_singleton|?]%elem_of_union|(nj' & c & ? & ?)].
        -- subst j'. right. exists nj, cj. set_solver.
        -- by left.
        -- right. exists nj', c. set_solver.
    + destruct (IH used group) as (extras & Hg & Hex & Hsub & Hin).
      exists extras. split_and!; [done| |done|].
      * intros c Hc. destruct (Hex c Hc) as (j' & nj' & ? & ?).
        exists j', nj'. set_solver.
      * intros j' Hj'. destruct (Hin j' Hj') as [?|(nj' & c & ? & ?)];
          [by left|right]. exists nj', c. set_solver.
Qed.

Lemma group_step_inv (names : list (string * record))
    (st : gset nat * list (list record)) (e : nat * (string * record)) :
  e ∈ enumerate names →
  grouping_inv ratio names st →
  grouping_inv ratio names (group_step ratio names st e)
  ∧ st.1 ⊆ (group_step ratio names st e).1
  ∧ e.1 ∈ (group_step ratio names st e).1.
Proof.
  destruct st as [used groups], e as [i [ni ci]]. intros He [Hgood Hused].
  unfold group_step. case_bool_decide as Hi.
  { split_and!; [by split | done | done]. }
  destruct (scan_spec ni (enumerate names) ({[i]} ∪ used) [ci])
    as (extras & Hg & Hex & Hsub & Hin).
  destruct (foldl _ _ _) as [used' group]. simpl in *. subst group.
  assert (Hci : (ni, ci) ∈ names) by (apply enumerate_elem_of; eauto).
  split_and!; [split; simpl| |].
  - intros g [Hg | ->%list_elem_of_singleton]%elem_of_app; [by apply Hgood|].
    exists ni, ci, extras. split_and!; [done..|].
    intros c Hc. destruct (Hex c Hc) as (j & nj & Hj & Hsim).
    exists nj. split; [|done]. apply enumerate_elem_of; eauto.
  - intros j Hj. destruct (Hin j Hj)
      as [[->%elem_of_singleton | Hj']%elem_of_union | (nj & c & Hjc & Hc)].
    + exists ni, ci, (ci :: extras). set_solver.
    + destruct (Hused j Hj') as (n & c & g & ? & ? & ?).
      exists n, c, g. set_solver.
    + exists nj, c, (ci :: extras). set_solver.
  - set_solver.
  - set_solver.
Qed.

Lemma group_fold_inv (names : list (string * record))
    (es : list (nat * (string * record)))
    (st : gset nat * list (list record)) :
  (∀ e, e ∈ es → e ∈ enumerate names) →
  grouping_inv ratio names st →
  grouping_inv ratio names (foldl (group_step ratio names) st es)
  ∧ st.1 ⊆ (foldl (group_step ratio names) st es).1
  ∧ ∀ e, e ∈ es → e.1 ∈ (foldl (group_step ratio names) st es).1.
Proof.
  revert st. induction es as [|e es IH]; intros st Hes Hinv; simpl.
  - split_and!; [done | done | by intros ? ?%elem_of_nil].
  - destruct (group_step_inv names st e) as (Hinv' & Hsub & He);
      [set_solver | done |].
    destruct (IH (group_step ratio names st e)) as (Hinv'' & Hsub' & Hes');
      [set_solver | done |].
    split_and!; [done | set_solver |].
    intros e' [-> | He']%elem_of_cons; [set_solver | by apply Hes'].
Qed.

(** The groups computed by the two loops: each one is anchored to its
    seed, and every record is in one of them. *)
Lemma group_loop_spec (names : list (string * record)) :
  (∀ g, g ∈ group_loop ratio names → good_group ratio names g)
  ∧ (∀ n c, (n, c) ∈ names → ∃ g, g ∈ group_loop ratio names ∧ c ∈ g).
Proof.
  destruct (group_fold_inv names (enumerate names) (∅, []))
    as ([Hgood Hused] & _ & Hall); [done | by split; set_solver |].
  unfold group_loop. split; [done|].
  intros n c [j Hj]%enumerate_elem_of.
  destruct (Hused j (Hall _ Hj)) as (n' & c' & g & Hj' & Hg & Hc).
  exists g. split; [done|].
  apply enumerate_from_lookup in Hj as [_ Hj], Hj' as [_ Hj'].
  by simplify_eq.
Qed.

End GroupingFacts.

Lemma normalized_pair_Ok (r : record) (n : string) :
  normalized_name r = Ok n → normalized_pair r = Ok (n, r).
Proof. unfold normalized_pair. by intros ->. Qed.

Lemma normalized_pair_inv (r c : record) (n : string) :
  normalized_pair r = Ok (n, c) → c = r ∧ normalized_name r = Ok n.
Proof.
  unfold normalized_pair. by intros (? & -> & [= -> ->])%bind_Ok_inv.
Qed.

Lemma mapM_normalized_pair (companies : list record)
    (names : list (string * record)) :
  mapM_result normalized_pair companies = Ok names →
  ∀ n c, (n, c) ∈ names ↔ c ∈ companies ∧ normalized_name c = Ok n.
Proof.
  revert names. induction companies as [|r companies IH]; intros names.
  - intros [= <-] n c. set_solver.
  - rewrite mapM_result_cons.
    intros ([nr r'] & [-> Hr]%normalized_pair_inv
            & (names' & Hnames' & [= <-])%bind_Ok_inv)%bind_Ok_inv.
    intros n c. rewrite !elem_of_cons, (IH names' Hnames'). split.
    + intros [[= -> ->] | [? ?]]; auto.
    + intros [[-> | ?] Hn]; [left | by right]. congruence.
Qed.

Lemma mapM_normalized_pair_total (companies : list record) :
  names_normalise companies →
  ∃ names, mapM_result normalized_pair companies = Ok names.
Proof.
  induction companies as [|r companies IH]; intros Hall; [by eexists|].
  destruct (Hall r) as [n Hn]; [set_solver|].
  destruct IH as [names Hnames]; [intros ? ?; apply Hall; set_solver|].
  rewrite mapM_result_cons, (normalized_pair_Ok r n Hn), bind_Ok, Hnames.
  by eexists.
Qed.

Lemma group_similar_total (ratio : string → string → Q)
    (companies : list record) :
  names_normalise companies →
  ∃ names, mapM_result normalized_pair companies = Ok names
           ∧ _group_similar_companies ratio companies
             = Ok (group_loop ratio names).
Proof.
  intros Hall. destruct (mapM_normalized_pair_total companies Hall) as [names Hn].
  exists names. split; [done|].
  unfold _group_similar_companies. destruct companies; [|by rewrite Hn].
  simpl in Hn. by injection Hn as <-.
Qed.

(** C9.  A record whose name normalises to the empty string is the only
    member of its group, whatever the other records are: the similarity
    of an empty name to any name, the empty name included, is 0. *)
Theorem unnamed_records_stay_alone (ratio : string → string → Q)
    (companies : list record) :
  names_normalise companies →
  _calculate_similarity ratio "" "" = 0%Q
  ∧ ∃ groups,
      _group_similar_companies ratio companies = Ok groups
      ∧ ∀ r, r ∈ companies → normalized_name r = Ok "" →
          [r] ∈ groups ∧ ∀ g, g ∈ groups → r ∈ g → g = [r].
Proof.
  intros Hall. split; [done|].
  destruct (group_similar_total ratio companies Hall) as (names & Hn & ->).
  exists (group_loop ratio names). split; [done|].
  destruct (group_loop_spec ratio names) as [Hgood Hcover].
  pose proof (mapM_normalized_pair companies names Hn) as Hnames.
  assert (Halone : ∀ r g, normalized_name r = Ok "" →
            g ∈ group_loop ratio names → r ∈ g → g = [r]).
  { intros r g Hr Hg Hrg.
    destruct (Hgood g Hg) as (ni & ci & rest & -> & Hci & Hrest).
    apply Hnames in Hci as [_ Hci].
    apply elem_of_cons in Hrg as [-> | Hrg].
    - assert (ni = "") as -> by congruence.
      destruct rest as [|c rest]; [done|].
      destruct (Hrest c) as (nj & _ & Hsim); [set_solver|].
      by rewrite similar_empty_l in Hsim.
    - destruct (Hrest r Hrg) as (nj & [_ Hnj]%Hnames & Hsim).
      assert (nj = "") as -> by congruence.
      by rewrite similar_empty_r in Hsim. }
  intros r Hr Hempty.
  destruct (Hcover "" r) as (g & Hg & Hrg); [by apply Hnames|].
  split; [|by eauto].
  by rewrite <- (Halone r g Hempty Hg Hrg).
Qed.

Lemma unnamed_records_stay_alone_witness :
  names_normalise unnamed_companies
  ∧ ∃ groups,
      _group_similar_companies token_sort_ratio unnamed_companies = Ok groups
      ∧ ∀ r, r ∈ unnamed_companies → normalized_name r = Ok "" →
          [r] ∈ groups ∧ ∀ g, g ∈ groups → r ∈ g → g = [r].
Proof.
  assert (H : names_normalise unnamed_companies).
  { intros r Hr. unfold unnamed_companies in Hr.
    repeat (apply elem_of_cons in Hr as [-> | Hr]);
      [by eexists; vm_compute.. | by apply elem_of_nil in Hr]. }
  split; [exact H|].
  exact (proj2 (unnamed_records_stay_alone token_sort_ratio unnamed_companies H)).
Defined.

(** ** Dictionary access *)

Lemma get_insert_eq (m : record) (k : string) (v : value) :
  get (<[k := v]> m) k = v.
Proof. unfold get. by rewrite lookup_insert_eq. Qed.

Lemma get_insert_ne (m : record) (k k' : string) (v : value) :
  k ≠ k' → get (<[k := v]> m) k' = get m k'.
Proof. intros Hne. unfold get. by rewrite lookup_insert_ne. Qed.

Lemma get_ext (m m' : record) (k : string) :
  m !! k = m' !! k → get m k = get m' k.
Proof. unfold get. by intros ->. Qed.

Lemma truthy_get_lookup (m : record) (k : string) :
  truthy (get m k) = true → m !! k = Some (get m k).
Proof. unfold get. by destruct (m !! k). Qed.

(** ** The merge step, field by field *)

Lemma fill_lookup_ne (k k' : string) (company merged : record) :
  k ≠ k' → fill k company merged !! k' = merged !! k'.
Proof.
  intros Hne. unfold fill.
  destruct (_ && _); [by rewrite lookup_insert_ne | done].
Qed.

Lemma fill_lookup_eq (k : string) (company merged : record) :
  fill k company merged !! k
  = if negb (truthy (get merged k)) && truthy (get company k)
    then company !! k else merged !! k.
Proof.
  unfold fill. destruct (negb _) eqn:Hm; simpl; [|done].
  destruct (truthy (get company k)) eqn:Hc; [|done].
  by rewrite lookup_insert_eq, truthy_get_lookup.
Qed.

Lemma fill_keeps (k k' : string) (company merged : record) :
  truthy (get merged k') = true → fill k company merged !! k' = merged !! k'.
Proof.
  intros Ht. destruct (decide (k = k')) as [-> | Hne].
  - by rewrite fill_lookup_eq, Ht.
  - by apply fill_lookup_ne.
Qed.

Lemma merge_funding_round_lookup_ne (k : string) (company merged : record) :
  k ≠ "funding_round" → merge_funding_round company merged !! k = merged !! k.
Proof.
  intros Hne. unfold merge_funding_round.
  destruct (_ && _); [|done].
  destruct (negb _); [by rewrite lookup_insert_ne | done].
Qed.

Lemma specific_spec (v : value) :
  specific v
  = truthy v && negb (bool_decide (v ∈ [VStr "Unknown"; VNone])).
Proof.
  unfold specific. destruct (truthy v) eqn:Ht; [simpl | done]. f_equal.
  apply bool_decide_ext. split; [set_solver|].
  intros [-> | [-> | []%elem_of_nil]%elem_of_cons]%elem_of_cons; done.
Qed.

Lemma merge_funding_round_get (company merged : record) :
  get (merge_funding_round company merged) "funding_round"
  = if replaceable (get merged "funding_round")
       && specific (get company "funding_round")
    then get company "funding_round"
    else get merged "funding_round".
Proof.
  rewrite specific_spec. unfold merge_funding_round, replaceable.
  destruct (bool_decide (get merged _ ∈ _)); [simpl | done].
  destruct (truthy _); [simpl | done].
  destruct (negb _); [by rewrite get_insert_eq | done].
Qed.

(** ** Investors *)

Lemma append_investor_spec (merged : record) (inv : atom) :
  investors_ok merged →
  ∃ merged',
    append_investor merged inv = Ok merged'
    ∧ investors_of merged' = investors_of merged ++ [inv]
    ∧ investors_ok merged'
    ∧ ∀ k, k ≠ "investors" → merged' !! k = merged !! k.
Proof.
  unfold append_investor, investors_of, investors_ok.
  intros [Hm | [l Hm]]; rewrite Hm; eexists; (split; [reflexivity|]);
    rewrite lookup_insert_eq; (split_and!; [done | eauto |]);
    intros k Hk; by rewrite lookup_insert_ne.
Qed.

Lemma investor_fold_spec (invs : list atom) (merged : record)
    (existing : list atom) :
  investors_ok merged →
  ∃ merged' existing',
    foldM_result investor_step (merged, existing) invs
    = Ok (merged', existing')
    ∧ investors_of merged'
      = investors_of merged
        ++ dedup_first existing (filter (λ a, atom_truthy a = true) invs)
    ∧ investors_ok merged'
    ∧ ∀ k, k ≠ "investors" → merged' !! k = merged !! k.
Proof.
  revert merged existing.
  induction invs as [|inv invs IH]; intros merged existing Hok.
  { exists merged, existing. simpl. by rewrite app_nil_r. }
  rewrite foldM_result_cons. unfold investor_step at 2.
  destruct (atom_truthy inv) eqn:Ht; simpl.
  - rewrite filter_cons_True by done. simpl.
    case_bool_decide as Hin; simpl.
    + destruct (IH merged existing Hok) as (m' & e' & -> & ? & ? & ?).
      by exists m', e'.
    + destruct (append_investor_spec merged inv Hok)
        as (m1 & -> & Hinv & Hok1 & Hk1). simpl.
      destruct (IH m1 (inv :: existing) Hok1) as (m' & e' & -> & Hinv' & ? & Hk').
      exists m', e'. split_and!; [done | | done |].
      * by rewrite Hinv', Hinv, <- app_assoc.
      * intros k Hk. by rewrite Hk', Hk1.
  - rewrite filter_cons_False by (by rewrite Ht).
    destruct (IH merged existing Hok) as (m' & e' & -> & ? & ? & ?).
      by exists m', e'.
Qed.

Lemma merge_investors_spec (company merged : record) :
  investors_ok merged → investors_ok company →
  ∃ merged',
    merge_investors company merged = Ok merged'
    ∧ investors_of merged'
      = investors_of merged
        ++ dedup_first (investors_of merged)
             (filter (λ a, atom_truthy a = true) (investors_of company))
    ∧ investors_ok merged'
    ∧ ∀ k, k ≠ "investors" → merged' !! k = merged !! k.
Proof.
  intros Hm Hc. unfold merge_investors.
  assert (elements_of (get_or merged "investors" (VList []))
          = Ok (investors_of merged)) as ->.
  { unfold get_or, investors_of. by destruct Hm as [-> | [l ->]]. }
  rewrite bind_Ok.
  assert (get_or company "investors" (VList [])
          = VList (investors_of company)) as ->.
  { unfold get_or, investors_of. by destruct Hc as [-> | [l ->]]. }
  destruct (investors_of company) as [|inv invs] eqn:Hinvs; simpl truthy.
  { exists merged. simpl. by rewrite app_nil_r. }
  cbn [elements_of]. rewrite bind_Ok.
  destruct (investor_fold_spec (inv :: invs) merged (investors_of merged) Hm)
    as (m' & e' & -> & ? & ? & ?).
  by exists m'.
Qed.

(** ** One merge step *)

(** Strips the updates of the other fields from a lookup. *)
Ltac peel H :=
  repeat first
    [ rewrite fill_lookup_ne by done
    | rewrite merge_funding_round_lookup_ne by done
    | rewrite H by done ].

Lemma merge_step_spec (merged company : record) :
  investors_ok merged → investors_ok company →
  ∃ merged',
    merge_step merged company = Ok merged'
    ∧ investors_ok merged'
    ∧ investors_of merged'
      = investors_of merged
        ++ dedup_first (investors_of merged)
             (filter (λ a, atom_truthy a = true) (investors_of company))
    ∧ merged' !! "funding_round"
      = (if replaceable (get merged "funding_round")
            && specific (get company "funding_round")
         then company !! "funding_round"
         else merged !! "funding_round")
    ∧ (∀ k, k ∈ fill_keys →
         merged' !! k
         = if negb (truthy (get merged k)) && truthy (get company k)
           then company !! k else merged !! k)
    ∧ (∀ k, k ∉ fill_keys → k ≠ "funding_round" → k ≠ "investors" →
         merged' !! k = merged !! k).
Proof.
  intros Hm Hc. unfold merge_step.
  set (m0 := fill "description" company (fill "company_website" company merged)).
  assert (Hm0 : ∀ k, k ≠ "description" → k ≠ "company_website" →
            m0 !! k = merged !! k).
  { intros k ? ?. unfold m0. by rewrite !fill_lookup_ne. }
  assert (Hok0 : investors_ok m0).
  { unfold investors_ok. by rewrite Hm0. }
  destruct (merge_investors_spec company m0 Hok0 Hc)
    as (m1 & -> & Hinv & Hok1 & Hm1).
  rewrite bind_Ok. eexists. split; [reflexivity|].
  assert (Hinv0 : investors_of m0 = investors_of merged).
  { unfold investors_of. by rewrite Hm0. }
  split_and!.
  - unfold investors_ok in *. by peel Hm1.
  - rewrite <- Hinv0, <- Hinv. unfold investors_of. by peel Hm1.
  - assert (Hfr : m1 !! "funding_round" = merged !! "funding_round")
      by (by rewrite Hm1, Hm0).
    peel Hm1. unfold merge_funding_round.
    rewrite specific_spec. unfold replaceable.
    rewrite (get_ext m1 merged _ Hfr).
    destruct (bool_decide (get merged _ ∈ _)); simpl; [|done].
    destruct (truthy (get company _)) eqn:Ht; simpl; [|done].
    destruct (negb _); [|done].
    by rewrite lookup_insert_eq, truthy_get_lookup.
  - intros k Hk. unfold fill_keys in Hk.
    repeat (apply elem_of_cons in Hk as [-> | Hk]);
      [..| by apply elem_of_nil in Hk];
      subst m0; peel Hm1; rewrite fill_lookup_eq; unfold get; by peel Hm1.
  - intros k Hk ? ?. unfold fill_keys in Hk.
    rewrite !not_elem_of_cons in Hk. destruct Hk as (?&?&?&?&?&?&_).
    peel Hm1. by apply Hm0.
Qed.

(** ** The stable sort by source priority *)

Section SortKeyed.

Context {A : Type}.
Implicit Types (l : list (nat * A)) (k p : nat) (x : A).

Lemma insert_keyed_Permutation k x l : insert_keyed k x l ≡ₚ (k, x) :: l.
Proof.
  induction l as [|[k' y] l IH]; simpl; [done|].
  destruct (k <=? k')%nat; [done|]. by rewrite IH, Permutation_swap.
Qed.

Lemma sort_keyed_Permutation l : sort_keyed l ≡ₚ l.
Proof.
  induction l as [|[k x] l IH]; simpl; [done|].
  fold (sort_keyed l). by rewrite insert_keyed_Permutation, IH.
Qed.

Lemma insert_keyed_sorted k x l :
  StronglySorted (λ e1 e2, (e1.1 ≤ e2.1)%nat) l →
  StronglySorted (λ e1 e2, (e1.1 ≤ e2.1)%nat) (insert_keyed k x l).
Proof.
  induction 1 as [|[k' y] l Hl IH Hall]; simpl.
  - repeat constructor.
  - destruct (Nat.leb_spec k k') as [Hle | Hlt].
    + constructor; [by constructor|]. constructor; [done|].
      eapply Forall_impl; [exact Hall|]. simpl. lia.
    + constructor; [done|]. rewrite insert_keyed_Permutation.
      constructor; [simpl; lia | done].
Qed.

Lemma sort_keyed_sorted l :
  StronglySorted (λ e1 e2, (e1.1 ≤ e2.1)%nat) (sort_keyed l).
Proof.
  induction l as [|[k x] l IH]; simpl; [constructor|].
  by apply insert_keyed_sorted.
Qed.

(** Stability: the elements of any one key keep their order. *)
Lemma insert_keyed_filter p k x l :
  filter (λ e, e.1 = p) (insert_keyed k x l)
  = if decide (k = p) then (k, x) :: filter (λ e, e.1 = p) l
    else filter (λ e, e.1 = p) l.
Proof.
  induction l as [|[k' y] l IH]; simpl.
  - rewrite filter_cons. simpl. by destruct (decide (k = p)).
  - destruct (Nat.leb_spec k k') as [Hle | Hlt].
    + rewrite filter_cons. simpl. by destruct (decide (k = p)).
    + rewrite !(filter_cons _ (k', y)), IH. simpl.
      destruct (decide (k = p)), (decide (k' = p)); try done. lia.
Qed.

Lemma sort_keyed_stable p l :
  filter (λ e, e.1 = p) (sort_keyed l) = filter (λ e, e.1 = p) l.
Proof.
  induction l as [|[k x] l IH]; simpl; [done|]. fold (sort_keyed l).
  rewrite insert_keyed_filter, filter_cons, IH. simpl.
  by destruct (decide (k = p)).
Qed.

Lemma insert_keyed_head k x l :
  head (insert_keyed k x l)
  = match head l with
    | Some (k', y) => if (k <=? k')%nat then Some (k, x) else Some (k', y)
    | None => Some (k, x)
    end.
Proof. destruct l as [|[k' y] l]; simpl; [done|]. by destruct (k <=? k')%nat. Qed.

End SortKeyed.

Lemma sort_key_Ok (x : record) (a : atom) :
  get_or x "source" (VStr "") = VAtom a → sort_key x = Ok (priority x).
Proof.
  unfold sort_key, priority. intros ->. by destruct a.
Qed.

Lemma keyed_group_Ok (group : list record) :
  Forall mergeable group →
  mapM_result keyed group = Ok (map (λ x, (priority x, x)) group).
Proof.
  induction 1 as [|x group [[a Ha] _] _ IH]; [done|].
  rewrite mapM_result_cons. unfold keyed at 2.
  by rewrite (sort_key_Ok x a Ha), !bind_Ok, IH.
Qed.

Lemma sorted_by_priority_Ok (group : list record) :
  Forall mergeable group → sorted_by_priority group = Ok (sorted_group group).
Proof.
  intros Hall. unfold sorted_by_priority. by rewrite keyed_group_Ok.
Qed.

Lemma sorted_group_Permutation (group : list record) :
  sorted_group group ≡ₚ group.
Proof.
  unfold sorted_group. rewrite sort_keyed_Permutation.
  by rewrite <- list_fmap_compose, list_fmap_id.
Qed.

Lemma keyed_consistent (group : list record) :
  Forall (λ e : nat * record, e.1 = priority e.2)
         (sort_keyed (map (λ x, (priority x, x)) group)).
Proof.
  rewrite sort_keyed_Permutation. by apply Forall_fmap, Forall_true.
Qed.

Lemma sorted_group_sorted (group : list record) :
  StronglySorted (λ x y, (priority x ≤ priority y)%nat) (sorted_group group).
Proof.
  unfold sorted_group.
  pose proof (keyed_consistent group) as Hc.
  pose proof (sort_keyed_sorted (map (λ x, (priority x, x)) group)) as Hs.
  induction Hs as [|[k x] l Hl IH Hall]; simpl; [constructor|].
  apply Forall_cons in Hc as [Hk Hc]. simpl in Hk. subst k.
  constructor; [by apply IH|].
  apply Forall_fmap. eapply Forall_impl; [apply Forall_and; split; [exact Hall | exact Hc]|].
  intros [k' y] [Hle Hk']. simpl in *. by subst k'.
Qed.

(** Records of equal priority keep their relative order. *)
Lemma sorted_group_stable (p : nat) (group : list record) :
  filter (λ x, priority x = p) (sorted_group group)
  = filter (λ x, priority x = p) group.
Proof.
  assert (Hsnd : ∀ l : list (nat * record),
            Forall (λ e, e.1 = priority e.2) l →
            filter (λ x, priority x = p) (map snd l)
            = map snd (filter (λ e, e.1 = p) l)).
  { induction 1 as [|[k x] l Hk _ IH]; [done|]. simpl in Hk. subst k.
    simpl. rewrite !filter_cons, IH. simpl.
    by destruct (decide (priority x = p)). }
  unfold sorted_group.
  rewrite Hsnd by apply keyed_consistent.
  rewrite sort_keyed_stable.
  rewrite <- Hsnd by (by apply Forall_fmap, Forall_true).
  by rewrite <- list_fmap_compose, list_fmap_id.
Qed.

Lemma keyed_head (group : list record) :
  head (sort_keyed (map (λ x, (priority x, x)) group))
  = (λ x, (priority x, x)) <$> highest_priority group.
Proof.
  induction group as [|x group IH]; [done|]. simpl.
  fold (sort_keyed (map (λ x, (priority x, x)) group)).
  rewrite insert_keyed_head, IH.
  destruct (highest_priority group) as [y|]; simpl; [|done].
  by destruct (priority x <=? priority y)%nat.
Qed.

(** The first record of the sorted group is the first record of least
    priority number in the group. *)
Lemma sorted_group_head (group : list record) :
  head (sorted_group group) = highest_priority group.
Proof.
  unfold sorted_group. pose proof (keyed_head group) as Hh.
  destruct (sort_keyed _) as [|[k x] l]; simpl in *;
    by destruct (highest_priority group); simplify_eq/=.
Qed.

Lemma sorted_group_length (group : list record) :
  length (sorted_group group) = length group.
Proof. by rewrite sorted_group_Permutation. Qed.

(** ** Union in order of first appearance *)

Lemma dedup_first_proper (s1 s2 l : list atom) :
  (∀ x, x ∈ s1 ↔ x ∈ s2) → dedup_first s1 l = dedup_first s2 l.
Proof.
  revert s1 s2. induction l as [|x l IH]; intros s1 s2 Hs; simpl; [done|].
  rewrite (bool_decide_ext (x ∈ s1) (x ∈ s2)) by apply Hs.
  case_bool_decide; [by apply IH|]. f_equal. apply IH. set_solver.
Qed.

Lemma dedup_first_app (seen l1 l2 : list atom) :
  dedup_first seen (l1 ++ l2)
  = dedup_first seen l1 ++ dedup_first (seen ++ dedup_first seen l1) l2.
Proof.
  revert seen. induction l1 as [|x l1 IH]; intros seen; simpl.
  - by rewrite app_nil_r.
  - case_bool_decide; [apply IH|]. simpl. f_equal. rewrite IH. f_equal.
    apply dedup_first_proper. set_solver.
Qed.

Lemma elem_of_dedup_first (seen l : list atom) (x : atom) :
  x ∈ dedup_first seen l ↔ x ∈ l ∧ x ∉ seen.
Proof.
  revert seen. induction l as [|y l IH]; intros seen; simpl; [set_solver|].
  case_bool_decide as Hy.
  - rewrite IH. set_solver.
  - rewrite !elem_of_cons, IH. destruct (decide (x = y)); set_solver.
Qed.

Lemma NoDup_dedup_first (seen l : list atom) :
  NoDup seen → NoDup (seen ++ dedup_first seen l).
Proof.
  revert seen. induction l as [|y l IH]; intros seen Hnd; simpl.
  - by rewrite app_nil_r.
  - case_bool_decide as Hy; [by apply IH|].
    rewrite <- Permutation_middle. change (NoDup ((y :: seen) ++ dedup_first (y :: seen) l)).
    apply IH. by constructor.
Qed.

(** ** The fold of the merge step over the lower-priority records *)

Lemma merge_fold_spec (rest : list record) (merged : record) :
  investors_ok merged → Forall investors_ok rest →
  ∃ merged',
    foldM_result merge_step merged rest = Ok merged'
    ∧ investors_ok merged'
    ∧ investors_of merged'
      = investors_of merged
        ++ dedup_first (investors_of merged)
             (filter (λ a, atom_truthy a = true)
                     (concat (map investors_of rest)))
    ∧ (∀ k, k ∉ fill_keys → k ≠ "funding_round" → k ≠ "investors" →
         merged' !! k = merged !! k)
    ∧ (∀ k, k ∈ fill_keys →
         merged' !! k
         = if truthy (get merged k) then merged !! k
           else match first_filled k rest with
                | Some c => c !! k
                | None => merged !! k
                end)
    ∧ (replaceable (get merged "funding_round") = false →
       merged' !! "funding_round" = merged !! "funding_round").
Proof.
  intros Hm Hrest. revert merged Hm.
  induction Hrest as [|c rest Hc _ IH]; intros merged Hm.
  { exists merged. simpl. rewrite app_nil_r. split_and!; try done.
    intros k _. by destruct (truthy _). }
  rewrite foldM_result_cons.
  destruct (merge_step_spec merged c Hm Hc)
    as (m1 & -> & Hok1 & Hinv1 & Hfr1 & Hfill1 & Hoth1).
  rewrite bind_Ok.
  destruct (IH m1 Hok1) as (m' & -> & Hok' & Hinv' & Hoth' & Hfill' & Hfr').
  exists m'. split_and!; [done | done | | | |].
  - rewrite Hinv', Hinv1. simpl. rewrite filter_app, dedup_first_app.
    by rewrite <- !app_assoc.
  - intros k ? ? ?. by rewrite Hoth', Hoth1.
  - intros k Hk. rewrite (Hfill' k Hk). pose proof (Hfill1 k Hk) as H1.
    simpl. destruct (truthy (get merged k)) eqn:Htm; simpl in H1.
    + by rewrite (get_ext m1 merged k H1), Htm.
    + destruct (truthy (get c k)) eqn:Htc.
      * by rewrite (get_ext m1 c k H1), Htc.
      * by rewrite (get_ext m1 merged k H1), Htm, H1.
  - intros Hrep. rewrite Hrep in Hfr1. simpl in Hfr1.
    rewrite Hfr'; [done|]. by rewrite (get_ext m1 merged _ Hfr1).
Qed.

(** ** The sources of a group *)

Lemma elem_of_truthy_sources (group : list record) (a : atom) :
  a ∈ truthy_sources group
  ↔ atom_truthy a = true ∧ ∃ c, c ∈ group ∧ c !! "source" = Some (VAtom a).
Proof.
  unfold truthy_sources. rewrite list_elem_of_omap. split.
  - intros (c & Hc & Ha). destruct (c !! "source") as [[a'|]|] eqn:Hs; try done.
    destruct (atom_truthy a') eqn:Ht; [|done]. injection Ha as ->. eauto.
  - intros (Ht & c & Hc & Hs). exists c. by rewrite Hs, Ht.
Qed.

Lemma source_values_Ok (group : list record) :
  Forall mergeable group →
  mapM_result hashable
    (map (λ c, get_or c "source" (VStr ""))
         (filter (λ c, truthy (get c "source") = true) group))
  = Ok (truthy_sources group).
Proof.
  induction 1 as [|c group [[a Ha] _] _ IH]; [done|].
  rewrite filter_cons.
  assert (Hts : truthy_sources (c :: group)
                = match c !! "source" with
                  | Some (VAtom a) =>
                      if atom_truthy a then a :: truthy_sources group
                      else truthy_sources group
                  | _ => truthy_sources group
                  end).
  { unfold truthy_sources. simpl.
    destruct (c !! "source") as [[a'|]|]; try done. by destruct (atom_truthy a'). }
  rewrite Hts. destruct (c !! "source") as [v|] eqn:Hs.
  - assert (v = VAtom a) as -> by (unfold get_or in Ha; by rewrite Hs in Ha).
    assert (get c "source" = VAtom a) as -> by (unfold get; by rewrite Hs).
    simpl truthy. destruct (atom_truthy a) eqn:Ht.
    + rewrite decide_True by done.
      cbn [map]. rewrite mapM_result_cons, Ha. simpl hashable.
      by rewrite bind_Ok, IH.
    + rewrite decide_False by done. apply IH.
  - assert (get c "source" = VNone) as -> by (unfold get; by rewrite Hs).
    rewrite decide_False by done. apply IH.
Qed.

Lemma all_sources_Ok (group : list record) :
  Forall mergeable group →
  all_sources group = Ok (remove_dups (truthy_sources group)).
Proof.
  intros Hall. unfold all_sources. by rewrite source_values_Ok.
Qed.

(** ** The merge of a group of two or more records *)

(** Decides a closed proposition by evaluation. *)
Ltac by_evaluation :=
  refine (bool_decide_eq_true_1 _ _); vm_compute; reflexivity.

Lemma merge_group_spec (x y : record) (group : list record) :
  Forall mergeable (x :: y :: group) →
  ∃ first rest merged,
    sorted_group (x :: y :: group) = first :: rest
    ∧ highest_priority (x :: y :: group) = Some first
    ∧ _merge_company_group (x :: y :: group) = Ok (Some merged)
    ∧ merged !! "sources"
      = Some (VList (remove_dups (truthy_sources (x :: y :: group))))
    ∧ investors_of merged
      = investors_of first
        ++ dedup_first (investors_of first)
             (filter (λ a, atom_truthy a = true)
                     (concat (map investors_of rest)))
    ∧ (∀ k, k ∉ fill_keys → k ≠ "funding_round" → k ≠ "investors" →
         k ≠ "sources" → merged !! k = first !! k)
    ∧ (∀ k, k ∈ fill_keys →
         merged !! k
         = if truthy (get first k) then first !! k
           else match first_filled k rest with
                | Some c => c !! k
                | None => first !! k
                end)
    ∧ (replaceable (get first "funding_round") = false →
       merged !! "funding_round" = first !! "funding_round").
Proof.
  intros Hall.
  pose proof (sorted_group_head (x :: y :: group)) as Hhead.
  pose proof (sorted_group_Permutation (x :: y :: group)) as Hperm.
  destruct (sorted_group (x :: y :: group)) as [|first rest] eqn:Hsorted.
  { by apply Permutation_nil_cons in Hperm. }
  assert (Hall' : Forall mergeable (first :: rest)) by (by rewrite Hperm).
  apply Forall_cons in Hall' as [[_ Hfirst] Hrest].
  set (srcs := remove_dups (truthy_sources (x :: y :: group))).
  set (m0 := <["sources" := VList srcs]> first).
  assert (Hm0 : ∀ k, k ≠ "sources" → m0 !! k = first !! k).
  { intros k Hk. unfold m0. by rewrite lookup_insert_ne. }
  destruct (merge_fold_spec rest m0)
    as (merged & Hfold & _ & Hinv & Hother & Hfill & Hfr).
  { unfold investors_ok. by rewrite Hm0. }
  { eapply Forall_impl; [exact Hrest|]. by intros ? [_ ?]. }
  exists first, rest, merged. split_and!; [done | done | | | | | |].
  - unfold _merge_company_group.
    rewrite (sorted_by_priority_Ok _ Hall), bind_Ok, Hsorted.
    unfold m0, srcs in Hfold.
    by rewrite (all_sources_Ok _ Hall), bind_Ok, Hfold.
  - rewrite Hother; [apply lookup_insert_eq | | done | done]. by_evaluation.
  - rewrite Hinv. unfold investors_of. by rewrite Hm0.
  - intros k ? ? ? ?. by rewrite Hother, Hm0.
  - intros k Hk. rewrite (Hfill k Hk).
    assert (k ≠ "sources").
    { intros ->. unfold fill_keys in Hk. by rewrite !elem_of_cons, elem_of_nil in Hk;
        destruct Hk as [?|[?|[?|[?|[?|[?|[]]]]]]]. }
    by rewrite (get_ext m0 first k (Hm0 k H)), (Hm0 k H).
  - assert (Hfr0 : m0 !! "funding_round" = first !! "funding_round")
      by (by apply Hm0).
    intros Hrep. rewrite Hfr; [done|].
    by rewrite (get_ext m0 first _ Hfr0).
Qed.


(** ** Source priority *)

(** [highest_priority] picks the first record among those of least
    priority number. *)
Lemma highest_priority_spec (group : list record) (best : record) :
  highest_priority group = Some best →
  ∃ l1 l2,
    group = l1 ++ best :: l2
    ∧ Forall (λ c, (priority best < priority c)%nat) l1
    ∧ Forall (λ c, (priority best ≤ priority c)%nat) l2.
Proof.
  revert best. induction group as [|x group IH]; intros best; [done|]. simpl.
  destruct (highest_priority group) as [y|] eqn:Hy.
  - destruct (IH y eq_refl) as (l1 & l2 & -> & H1 & H2).
    destruct (Nat.leb_spec (priority x) (priority y)) as [Hle | Hlt];
      intros [= <-].
    + exists [], (l1 ++ y :: l2). split_and!; [done | constructor |].
      apply Forall_app. split; [|constructor; [done|]].
      * eapply Forall_impl; [exact H1|]. simpl. lia.
      * eapply Forall_impl; [exact H2|]. simpl. lia.
    + exists (x :: l1), l2. split_and!; [done | by constructor | done].
  - intros [= <-]. destruct group as [|z group]; [|simpl in Hy].
    + by exists [], [].
    + by destruct (highest_priority group) as [w|];
        [destruct (priority z <=? priority w)%nat|].
Qed.

Lemma highest_priority_is_Some (group : list record) :
  group ≠ [] → ∃ best, highest_priority group = Some best.
Proof.
  destruct group as [|x group]; [done|]. intros _. simpl.
  destruct (highest_priority group) as [y|]; [|by eexists].
  destruct (priority x <=? priority y)%nat; by eexists.
Qed.

(** C5.  The merged record carries the company name of the record of
    highest source priority, the first of them in the group's order when
    several share that priority; the priorities are those of the table,
    999 for a source that is not in it; and in the specification's
    example the merged record is named "Foo Inc" with industry "X". *)
Theorem merged_name_is_highest_priority (group : list record) :
  group ≠ [] → Forall mergeable group →
  (∃ merged best l1 l2,
      _merge_company_group group = Ok (Some merged)
      ∧ group = l1 ++ best :: l2
      ∧ Forall (λ c, (priority best < priority c)%nat) l1
      ∧ Forall (λ c, (priority best ≤ priority c)%nat) l2
      ∧ merged !! "company_name" = best !! "company_name")
  ∧ map (λ s, priority {[ "source" := VStr s ]})
        [ "SEC Form D"; "TechCrunch"; "VentureBeat"; "CB Insights";
          "PitchBook"; "Founder Collective Portfolio" ]
    = [0; 1; 2; 3; 4; 5]%nat
  ∧ (∀ s, source_priority !! s = None →
          priority {[ "source" := VStr s ]} = 999%nat)
  ∧ priority ∅ = 999%nat
  ∧ ∃ merged,
      _merge_company_group [foo_techcrunch; foo_sec] = Ok (Some merged)
      ∧ merged !! "company_name" = Some (VStr "Foo Inc")
      ∧ merged !! "industry" = Some (VStr "X").
Proof.
  intros Hne Hall. split_and!.
  - destruct group as [|x [|y group]]; [done | |].
    + exists x, x, [], []. by repeat constructor.
    + destruct (merge_group_spec x y group Hall)
        as (first & rest & merged & Hsorted & Hbest & Hmerge & _ & _ & Hother & _).
      destruct (highest_priority_spec _ _ Hbest) as (l1 & l2 & Hg & H1 & H2).
      exists merged, first, l1, l2. split_and!; [done..|].
      apply Hother; [by_evaluation | done..].
  - by vm_compute.
  - intros s Hs. unfold priority, get_or.
    by rewrite lookup_singleton_eq; simpl; rewrite Hs.
  - done.
  - apply result_holds_Some. by vm_compute.
Qed.

Lemma merged_name_is_highest_priority_witness :
  [foo_techcrunch; foo_sec] ≠ []
  ∧ Forall mergeable [foo_techcrunch; foo_sec]
  ∧ ∃ merged best l1 l2,
      _merge_company_group [foo_techcrunch; foo_sec] = Ok (Some merged)
      ∧ [foo_techcrunch; foo_sec] = l1 ++ best :: l2
      ∧ Forall (λ c, (priority best < priority c)%nat) l1
      ∧ Forall (λ c, (priority best ≤ priority c)%nat) l2
      ∧ merged !! "company_name" = best !! "company_name".
Proof.
  assert (Hall : Forall mergeable [foo_techcrunch; foo_sec]).
  { repeat constructor; by eauto. }
  split; [done|]. split; [exact Hall|].
  exact (proj1 (merged_name_is_highest_priority
                  [foo_techcrunch; foo_sec] ltac:(done) Hall)).
Defined.

(** ** Funding round *)

(** The statement that the funding round is replaced exactly when the current
    value is generic or missing and the candidate is neither "Unknown"
    nor absent fails on a candidate that is the empty string: it is
    present and different from "Unknown", and the merged value stays
    "Equity". *)
Lemma funding_round_empty_candidate_kept :
  get round_equity "funding_round" ∈ [VStr "Unknown"; VStr "Equity"; VNone]
  ∧ round_empty !! "funding_round" = Some (VStr "")
  ∧ get round_empty "funding_round" ∉ [VStr "Unknown"; VNone]
  ∧ ∃ merged,
      merge_step round_equity round_empty = Ok merged
      ∧ get merged "funding_round" = VStr "Equity"
      ∧ get merged "funding_round" ≠ get round_empty "funding_round".
Proof.
  split_and!; [by_evaluation | by vm_compute | by_evaluation |].
  apply result_holds. by vm_compute.
Qed.

(** C7, amended.  A merge step replaces the funding round exactly when
    the current merged value is "Unknown", "Equity" or missing and the
    candidate is not empty and not "Unknown"; otherwise the current value
    stays.  "Equity" followed by "Series A" becomes "Series A", and
    "Series A" followed by "Series B" stays "Series A". *)
Theorem funding_round_rule (merged company : record) :
  investors_ok merged → investors_ok company →
  (∃ merged',
      merge_step merged company = Ok merged'
      ∧ (replaceable (get merged "funding_round") = true
         ∧ specific (get company "funding_round") = true →
         merged' !! "funding_round" = company !! "funding_round")
      ∧ (¬ (replaceable (get merged "funding_round") = true
            ∧ specific (get company "funding_round") = true) →
         merged' !! "funding_round" = merged !! "funding_round"))
  ∧ (∀ v, replaceable v = true ↔ v = VStr "Unknown" ∨ v = VStr "Equity" ∨ v = VNone)
  ∧ (∀ v, specific v = true ↔ truthy v = true ∧ v ≠ VStr "Unknown")
  ∧ (∃ m, merge_step round_equity round_series_a = Ok m
          ∧ m !! "funding_round" = Some (VStr "Series A"))
  ∧ (∃ m, merge_step round_series_a round_series_b = Ok m
          ∧ m !! "funding_round" = Some (VStr "Series A")).
Proof.
  intros Hm Hc. split_and!.
  - destruct (merge_step_spec merged company Hm Hc)
      as (m' & Hstep & _ & _ & Hfr & _).
    exists m'. split; [done|]. rewrite Hfr. split.
    + by intros [-> ->].
    + intros Hn. destruct (replaceable _) eqn:Hr; [|done].
      destruct (specific _) eqn:Hs; [|done]. by destruct Hn.
  - intros v. unfold replaceable. rewrite bool_decide_eq_true.
    rewrite !elem_of_cons, elem_of_nil. naive_solver.
  - intros v. unfold specific.
    rewrite andb_true_iff, negb_true_iff, bool_decide_eq_false. naive_solver.
  - apply result_holds. by vm_compute.
  - apply result_holds. by vm_compute.
Qed.

Lemma funding_round_rule_witness :
  investors_ok round_equity ∧ investors_ok round_series_a
  ∧ ∃ merged',
      merge_step round_equity round_series_a = Ok merged'
      ∧ (replaceable (get round_equity "funding_round") = true
         ∧ specific (get round_series_a "funding_round") = true →
         merged' !! "funding_round" = round_series_a !! "funding_round")
      ∧ (¬ (replaceable (get round_equity "funding_round") = true
            ∧ specific (get round_series_a "funding_round") = true) →
         merged' !! "funding_round" = round_equity !! "funding_round").
Proof.
  assert (H1 : investors_ok round_equity) by (by left).
  assert (H2 : investors_ok round_series_a) by (by left).
  split; [exact H1|]. split; [exact H2|].
  exact (proj1 (funding_round_rule round_equity round_series_a H1 H2)).
Defined.

(** ** Fill only if missing *)

(** The statement that no field is overwritten once it has a non-empty value
    fails on the funding round: the highest-priority record says
    "Equity", and the merged record says "Series A". *)
Lemma nonempty_funding_round_overwritten :
  highest_priority [round_series_a; round_equity] = Some round_equity
  ∧ truthy (get round_equity "funding_round") = true
  ∧ ∃ merged,
      _merge_company_group [round_series_a; round_equity] = Ok (Some merged)
      ∧ merged !! "funding_round" = Some (VStr "Series A")
      ∧ merged !! "funding_round" ≠ round_equity !! "funding_round".
Proof.
  split_and!; [vm_compute; reflexivity | vm_compute; reflexivity |].
  apply result_holds_Some. by vm_compute.
Qed.

Lemma first_filled_spec (k : string) (rest : list record) :
  match first_filled k rest with
  | Some c =>
      ∃ l1 l2, rest = l1 ++ c :: l2
               ∧ truthy (get c k) = true
               ∧ Forall (λ c', truthy (get c' k) = false) l1
  | None => Forall (λ c', truthy (get c' k) = false) rest
  end.
Proof.
  induction rest as [|c rest IH]; simpl; [constructor|].
  destruct (truthy (get c k)) eqn:Ht.
  - by exists [], rest.
  - destruct (first_filled k rest) as [c'|].
    + destruct IH as (l1 & l2 & -> & ? & ?).
      exists (c :: l1), l2. split_and!; [done | done | by constructor].
    + by constructor.
Qed.

(** C6, amended.  In the merge of a group of two or more records, with
    the records taken in priority order: each of the six fill fields
    keeps the value of the highest-priority record when that value is not
    empty (for the funding amount: not zero), and otherwise takes the
    value of the first lower-priority record that has a non-empty one;
    every field other than the funding round, the investors and the
    sources keeps a non-empty value of the highest-priority record, and
    the fields outside the merge policy keep its value whatever it is;
    the funding round is kept once it is a specific label; and the
    investors of the highest-priority record remain, in order, at the
    head of the merged list. *)
Theorem fill_only_if_missing (x y : record) (group : list record) :
  Forall mergeable (x :: y :: group) →
  ∃ first rest merged,
    sorted_group (x :: y :: group) = first :: rest
    ∧ _merge_company_group (x :: y :: group) = Ok (Some merged)
    ∧ (∀ k, k ∈ fill_keys →
         merged !! k
         = if truthy (get first k) then first !! k
           else match first_filled k rest with
                | Some c => c !! k
                | None => first !! k
                end)
    ∧ (∀ k, k ≠ "funding_round" → k ≠ "investors" → k ≠ "sources" →
         truthy (get first k) = true → merged !! k = first !! k)
    ∧ (∀ k, k ∉ fill_keys → k ≠ "funding_round" → k ≠ "investors" →
         k ≠ "sources" → merged !! k = first !! k)
    ∧ (replaceable (get first "funding_round") = false →
       merged !! "funding_round" = first !! "funding_round")
    ∧ investors_of first `prefix_of` investors_of merged
    ∧ truthy (VInt 0) = false.
Proof.
  intros Hall.
  destruct (merge_group_spec x y group Hall)
    as (first & rest & merged & Hsorted & _ & Hmerge & _ & Hinv & Hother
        & Hfill & Hfr).
  exists first, rest, merged. split_and!; [done | done | done | | done | done | | done].
  - intros k ? ? ? Ht. destruct (decide (k ∈ fill_keys)) as [Hk | Hk].
    + by rewrite (Hfill k Hk), Ht.
    + by apply Hother.
  - rewrite Hinv. by eexists.
Qed.

Lemma fill_only_if_missing_witness :
  Forall mergeable [rich_news; bare_filing]
  ∧ ∃ first rest merged,
      sorted_group [rich_news; bare_filing] = first :: rest
      ∧ _merge_company_group [rich_news; bare_filing] = Ok (Some merged)
      ∧ ∀ k, k ∈ fill_keys →
          merged !! k
          = if truthy (get first k) then first !! k
            else match first_filled k rest with
                 | Some c => c !! k
                 | None => first !! k
                 end.
Proof.
  assert (Hall : Forall mergeable [rich_news; bare_filing]).
  { repeat constructor; by eauto. }
  split; [exact Hall|].
  destruct (fill_only_if_missing rich_news bare_filing [] Hall)
    as (first & rest & merged & Hsorted & Hmerge & Hfill & _).
  exists first, rest, merged. exact (conj Hsorted (conj Hmerge Hfill)).
Defined.

(** The funding amount 0 and the missing website are filled from the
    news record; the location of the filing is kept. *)
Example fill_example :
  ∃ merged,
    _merge_company_group [rich_news; bare_filing] = Ok (Some merged)
    ∧ merged !! "funding_amount" = Some (VInt 500000)
    ∧ merged !! "company_website" = Some (VStr "https://foo.example")
    ∧ merged !! "location" = Some (VStr "Austin").
Proof. apply result_holds_Some. by vm_compute. Qed.

(** ** Investors of a merged record *)

(** The statement that the merged investors never hold a duplicate fails when
    the highest-priority record lists an investor twice: its list is
    copied as it is. *)
Lemma merged_investors_duplicate :
  ∃ merged,
    _merge_company_group [investors_aa; investors_bc] = Ok (Some merged)
    ∧ merged !! "investors" = Some (VList [AStr "A"; AStr "A"; AStr "B"; AStr "C"])
    ∧ ¬ NoDup (investors_of merged).
Proof.
  apply result_holds_Some. vm_compute. split; [reflexivity|].
  intros Hnd. apply NoDup_cons in Hnd as [Hin _]. apply Hin. by left.
Qed.

Lemma elem_of_concat_investors (rest : list record) (a : atom) :
  a ∈ concat (map investors_of rest) ↔ ∃ c, c ∈ rest ∧ a ∈ investors_of c.
Proof.
  induction rest as [|c rest IH]; simpl.
  - split; [by intros ?%elem_of_nil | by intros (? & ?%elem_of_nil & _)].
  - rewrite elem_of_app, IH. split.
    + intros [Ha | (c' & Hc' & Ha)]; [exists c | exists c']; set_solver.
    + intros (c' & [-> | Hc']%elem_of_cons & Ha); [by left | right; eauto].
Qed.

(** C8, amended.  In the merge of a group of two or more records, with
    the records taken in priority order, the merged investors are the
    list of the highest-priority record, unchanged, followed by the
    non-empty investors of the other records that it does not hold, each
    at its first appearance; so the merged list holds exactly the
    investors of the highest-priority record and the non-empty investors
    of the others, and it has no duplicate when the list of the
    highest-priority record has none.  Merging investors ["A", "B"] with
    ["B", "C"] gives ["A", "B", "C"]. *)
Theorem merged_investors_union (x y : record) (group : list record) :
  Forall mergeable (x :: y :: group) →
  (∃ first rest merged,
      sorted_group (x :: y :: group) = first :: rest
      ∧ _merge_company_group (x :: y :: group) = Ok (Some merged)
      ∧ investors_of merged
        = investors_of first
          ++ dedup_first (investors_of first)
               (filter (λ a, atom_truthy a = true)
                       (concat (map investors_of rest)))
      ∧ (∀ a, a ∈ investors_of merged
              ↔ a ∈ investors_of first
                ∨ (atom_truthy a = true ∧ ∃ c, c ∈ rest ∧ a ∈ investors_of c))
      ∧ (NoDup (investors_of first) → NoDup (investors_of merged)))
  ∧ ∃ merged,
      _merge_company_group [investors_ab; investors_bc] = Ok (Some merged)
      ∧ merged !! "investors" = Some (VList [AStr "A"; AStr "B"; AStr "C"]).
Proof.
  intros Hall. split; [|apply result_holds_Some; by vm_compute].
  destruct (merge_group_spec x y group Hall)
    as (first & rest & merged & Hsorted & _ & Hmerge & _ & Hinv & _).
  exists first, rest, merged. split_and!; [done | done | done | |].
  - intros a. rewrite Hinv, elem_of_app, elem_of_dedup_first.
    rewrite list_elem_of_filter, elem_of_concat_investors.
    destruct (decide (a ∈ investors_of first)); naive_solver.
  - intros Hnd. rewrite Hinv. by apply NoDup_dedup_first.
Qed.

Lemma merged_investors_union_witness :
  Forall mergeable [investors_bc; investors_ab]
  ∧ ∃ first rest merged,
      sorted_group [investors_bc; investors_ab] = first :: rest
      ∧ _merge_company_group [investors_bc; investors_ab] = Ok (Some merged)
      ∧ investors_of merged
        = investors_of first
          ++ dedup_first (investors_of first)
               (filter (λ a, atom_truthy a = true)
                       (concat (map investors_of rest))).
Proof.
  assert (Hall : Forall mergeable [investors_bc; investors_ab]).
  { repeat constructor; by eauto. }
  split; [exact Hall|].
  destruct (proj1 (merged_investors_union investors_bc investors_ab [] Hall))
    as (first & rest & merged & Hsorted & Hmerge & Hinv & _).
  exists first, rest, merged. exact (conj Hsorted (conj Hmerge Hinv)).
Defined.

(** ** The sources of a merged record *)

(** The statement that a sources set of size 1 marks an unmerged record fails
    when two records of one source are merged: the two reports fall into
    one group, and the merged record has the single source "TechCrunch". *)
Lemma single_source_merged_record :
  _group_similar_companies token_sort_ratio [same_source_a; same_source_b]
  = Ok [[same_source_a; same_source_b]]
  ∧ ∃ merged,
      deduplicate_companies token_sort_ratio [same_source_a; same_source_b]
      = Ok [merged]
      ∧ merged !! "sources" = Some (VList [AStr "TechCrunch"]).
Proof.
  split; [vm_compute; reflexivity|].
  apply result_holds_single. by vm_compute.
Qed.

(** C3, amended.  The sources of a record merged from a group of two or
    more records are exactly the distinct non-empty source values of the
    records of the group; when that list has one element, all the
    non-empty sources of the group are the same; and a group of one
    record is returned as it is, without a sources field of its own. *)
Theorem merged_sources_are_group_sources (x y : record) (group : list record) :
  Forall mergeable (x :: y :: group) →
  (∃ merged srcs,
      _merge_company_group (x :: y :: group) = Ok (Some merged)
      ∧ merged !! "sources" = Some (VList srcs)
      ∧ NoDup srcs
      ∧ (∀ a, a ∈ srcs
              ↔ atom_truthy a = true
                ∧ ∃ c, c ∈ x :: y :: group ∧ c !! "source" = Some (VAtom a))
      ∧ (length srcs = 1%nat →
         ∀ c c' a a',
           c ∈ x :: y :: group → c' ∈ x :: y :: group →
           c !! "source" = Some (VAtom a) → c' !! "source" = Some (VAtom a') →
           atom_truthy a = true → atom_truthy a' = true → a = a'))
  ∧ ∀ r, _merge_company_group [r] = Ok (Some r).
Proof.
  intros Hall. split; [|done].
  destruct (merge_group_spec x y group Hall)
    as (first & rest & merged & _ & _ & Hmerge & Hsrc & _).
  exists merged, (remove_dups (truthy_sources (x :: y :: group))).
  assert (Hin : ∀ a, a ∈ remove_dups (truthy_sources (x :: y :: group))
            ↔ atom_truthy a = true
              ∧ ∃ c, c ∈ x :: y :: group ∧ c !! "source" = Some (VAtom a)).
  { intros a. by rewrite elem_of_remove_dups, elem_of_truthy_sources. }
  split_and!; [done | done | apply NoDup_remove_dups | done |].
  intros Hlen c c' a a' Hc Hc' Ha Ha' Hta Hta'.
  assert (H1 : a ∈ remove_dups (truthy_sources (x :: y :: group)))
    by (apply Hin; eauto).
  assert (H2 : a' ∈ remove_dups (truthy_sources (x :: y :: group)))
    by (apply Hin; eauto).
  destruct (remove_dups _) as [|s [|??]]; [done | | done].
  apply list_elem_of_singleton in H1, H2. congruence.
Qed.

Lemma merged_sources_are_group_sources_witness :
  Forall mergeable [same_source_a; same_source_b]
  ∧ ∃ merged srcs,
      _merge_company_group [same_source_a; same_source_b] = Ok (Some merged)
      ∧ merged !! "sources" = Some (VList srcs)
      ∧ NoDup srcs.
Proof.
  assert (Hall : Forall mergeable [same_source_a; same_source_b]).
  { repeat constructor; by eauto. }
  split; [exact Hall|].
  destruct (proj1 (merged_sources_are_group_sources
                     same_source_a same_source_b [] Hall))
    as (merged & srcs & Hmerge & Hsrc & Hnd & _).
  exists merged, srcs. exact (conj Hmerge (conj Hsrc Hnd)).
Defined.

(** ** Statistics *)

Lemma has_merged_sources_Ok (c : record) :
  sources_ok c → has_merged_sources c = Ok (merged_flag c).
Proof.
  unfold has_merged_sources, merged_flag, get_or.
  by intros [-> | [l ->]].
Qed.

Lemma merged_flags_Ok (deduped : list record) :
  Forall sources_ok deduped →
  mapM_result has_merged_sources deduped = Ok (map merged_flag deduped).
Proof.
  induction 1 as [|c deduped Hc _ IH]; [done|].
  by rewrite mapM_result_cons, (has_merged_sources_Ok c Hc), bind_Ok, IH.
Qed.

Lemma by_source_Ok (original : list record) (d : list (atom * Z)) :
  Forall mergeable original →
  ∃ d',
    foldM_result
      (λ d c, source ← hashable (get_or c "source" (VStr "Unknown"));
              Ok (count_source source d))
      d original
    = Ok d'.
Proof.
  intros Hall. revert d.
  induction Hall as [|c original [[a Ha] _] _ IH]; intros d; [by eexists|].
  rewrite foldM_result_cons.
  assert (∃ a', get_or c "source" (VStr "Unknown") = VAtom a') as [a' ->].
  { unfold get_or in *. destruct (c !! "source"); simpl in *; eauto. }
  simpl hashable. rewrite bind_Ok, bind_Ok. apply IH.
Qed.

Lemma filter_flags (deduped : list record) :
  length (filter (λ b, b = true) (map merged_flag deduped))
  = length (filter (λ c, merged_flag c = true) deduped).
Proof.
  induction deduped as [|c deduped IH]; [done|]. cbn [map].
  rewrite !filter_cons.
  repeat case_decide; simpl; rewrite ?IH; congruence.
Qed.

Lemma get_dedup_stats_Ok (original deduped : list record) :
  Forall mergeable original → Forall sources_ok deduped →
  ∃ stats,
    get_dedup_stats original deduped = Ok stats
    ∧ companies_with_merged_sources stats
      = Z.of_nat (length (filter (λ c, merged_flag c = true) deduped))
    ∧ duplicates_removed stats
      = (Z.of_nat (length original) - Z.of_nat (length deduped))%Z.
Proof.
  intros Ho Hd. unfold get_dedup_stats.
  destruct (by_source_Ok original [] Ho) as [d ->]. rewrite bind_Ok.
  rewrite (merged_flags_Ok deduped Hd), bind_Ok.
  eexists. split; [reflexivity|]. simpl. by rewrite filter_flags.
Qed.

(** The contribution of one group to the count. *)
Lemma merged_of_group_flag (group : list record) :
  group ≠ [] → Forall mergeable group →
  Forall (λ r : record, r !! "sources" = None) group →
  (∃ merged, _merge_company_group group = Ok merged)
  ∧ Forall sources_ok (merged_of_group group)
  ∧ length (filter (λ c, merged_flag c = true) (merged_of_group group))
    = if multi_source group then 1%nat else 0%nat.
Proof.
  intros Hne Hall Hnosrc. unfold merged_of_group.
  destruct group as [|x [|y group]]; [done | |].
  - split; [by eexists|]. simpl.
    apply Forall_cons in Hnosrc as [Hx _].
    assert (Hflag : merged_flag x = false) by (unfold merged_flag; by rewrite Hx).
    assert (Hmulti : multi_source [x] = false).
    { unfold multi_source, truthy_sources. simpl.
      destruct (x !! "source") as [[a|]|]; [destruct (atom_truthy a)|..]; done. }
    rewrite Hmulti. destruct (decide (x = ∅)); simpl.
    + split; [constructor | done].
    + split; [apply Forall_cons; split; [by left | constructor]|].
      rewrite filter_cons, decide_False; [done|]. by rewrite Hflag.
  - destruct (merge_group_spec x y group Hall)
      as (first & rest & merged & _ & _ & Hmerge & Hsrc & _).
    rewrite Hmerge. split; [by eexists|]. simpl.
    rewrite decide_False by (intros ->; by rewrite lookup_empty in Hsrc).
    split; [apply Forall_cons; split; [right; eauto | constructor]|].
    assert (Hflag : merged_flag merged = multi_source (x :: y :: group))
      by (unfold merged_flag; by rewrite Hsrc).
    rewrite filter_cons, Hflag.
    by destruct (multi_source (x :: y :: group)).
Qed.

Lemma dedupe_fold_Ok (groups : list (list record)) (acc : list record) :
  Forall (λ g, ∃ merged, _merge_company_group g = Ok merged) groups →
  foldM_result
    (λ deduplicated group,
       merged ← _merge_company_group group;
       Ok (deduplicated ++ keep_merged merged))
    acc groups
  = Ok (acc ++ concat (map merged_of_group groups)).
Proof.
  intros Hall. revert acc.
  induction Hall as [|g groups [m Hm] _ IH]; intros acc.
  { simpl. by rewrite app_nil_r. }
  rewrite foldM_result_cons, Hm, !bind_Ok, IH. simpl.
  unfold merged_of_group at 2. by rewrite Hm, app_assoc.
Qed.

Lemma groups_members (ratio : string → string → Q) (companies : list record)
    (groups : list (list record)) :
  _group_similar_companies ratio companies = Ok groups →
  ∀ g, g ∈ groups → g ≠ [] ∧ ∀ c, c ∈ g → c ∈ companies.
Proof.
  unfold _group_similar_companies. destruct companies as [|r companies].
  { intros [= <-] g Hg. by apply elem_of_nil in Hg. }
  intros (names & Hnames & [= <-])%bind_Ok_inv g Hg.
  destruct (group_loop_spec ratio names) as [Hgood _].
  destruct (Hgood g Hg) as (ni & ci & rest & -> & Hci & Hrest).
  pose proof (mapM_normalized_pair _ names Hnames) as Hn.
  split; [done|]. intros c [-> | Hc]%elem_of_cons.
  - by apply Hn in Hci as [? _].
  - destruct (Hrest c Hc) as (nj & [? _]%Hn & _). done.
Qed.

Lemma count_groups (groups : list (list record)) :
  Forall (λ g, g ≠ [] ∧ Forall mergeable g
               ∧ Forall (λ r : record, r !! "sources" = None) g) groups →
  Forall (λ g, ∃ merged, _merge_company_group g = Ok merged) groups
  ∧ Forall sources_ok (concat (map merged_of_group groups))
  ∧ length (filter (λ c, merged_flag c = true)
                   (concat (map merged_of_group groups)))
    = length (filter (λ g, multi_source g = true) groups).
Proof.
  induction 1 as [|g groups (Hne & Hm & Hs) _ (IH1 & IH2 & IH3)].
  { split_and!; [constructor | constructor | done]. }
  destruct (merged_of_group_flag g Hne Hm Hs) as (Hok & Hsrc & Hcount).
  simpl. split_and!.
  - by constructor.
  - by apply Forall_app.
  - rewrite filter_app, length_app, Hcount, IH3, filter_cons.
    by destruct (multi_source g).
Qed.

Lemma multi_source_multi_record (group : list record) :
  multi_source group = true → (2 ≤ length group)%nat.
Proof.
  unfold multi_source. intros Hlt%Nat.ltb_lt.
  assert (Hdups : ∀ l : list atom, (length (remove_dups l) ≤ length l)%nat).
  { induction l as [|a l IH]; simpl; [done|]. case_decide; simpl; lia. }
  assert (Homap : ∀ g, (length (truthy_sources g) ≤ length g)%nat).
  { unfold truthy_sources. induction g as [|c g IH]; simpl; [done|].
    destruct (match c !! "source" with Some (VAtom a) => _ | _ => _ end);
      simpl; [apply le_n_S, IH | apply Nat.le_le_succ_r, IH]. }
  pose proof (Hdups (truthy_sources group)). pose proof (Homap group). lia.
Qed.

(** The statement that the statistics count every multi-record group fails
    when the records of a group share their source: the two reports make
    one group of two records, and the count is 0. *)
Lemma same_source_group_not_counted :
  _group_similar_companies token_sort_ratio [same_source_a; same_source_b]
  = Ok [[same_source_a; same_source_b]]
  ∧ (deduped ← deduplicate_companies token_sort_ratio
                  [same_source_a; same_source_b];
     stats ← get_dedup_stats [same_source_a; same_source_b] deduped;
     Ok (companies_with_merged_sources stats))
    = Ok 0%Z.
Proof. split; vm_compute; reflexivity. Qed.

(** C4, amended.  On raw records, the statistics report as
    [companies_with_merged_sources] the number of groups whose records
    have two or more distinct non-empty sources; it is at most the number
    of multi-record groups, and a multi-record group whose records share
    one source is not counted. *)
Theorem merged_sources_count (ratio : string → string → Q)
    (companies : list record) :
  raw_records companies →
  ∃ groups deduped stats,
    _group_similar_companies ratio companies = Ok groups
    ∧ deduplicate_companies ratio companies = Ok deduped
    ∧ get_dedup_stats companies deduped = Ok stats
    ∧ companies_with_merged_sources stats
      = Z.of_nat (length (filter (λ g, multi_source g = true) groups))
    ∧ (companies_with_merged_sources stats
       ≤ Z.of_nat (length (filter (λ g : list record, 2 ≤ length g)%nat groups)))%Z.
Proof.
  intros (Hnames & Hmerge & Hnosrc).
  destruct (group_similar_total ratio companies Hnames) as (names & Hn & Hgroups).
  set (groups := group_loop ratio names) in *.
  assert (Hall : Forall (λ g, g ≠ [] ∧ Forall mergeable g
                   ∧ Forall (λ r : record, r !! "sources" = None) g) groups).
  { apply Forall_forall. intros g Hg.
    destruct (groups_members ratio companies groups Hgroups g Hg) as [Hne Hin].
    rewrite Forall_forall in Hmerge, Hnosrc.
    split_and!; [done | |]; apply Forall_forall; auto. }
  destruct (count_groups groups Hall) as (Hok & Hsrc & Hcount).
  assert (Hdedupe : deduplicate_companies ratio companies
                    = Ok (concat (map merged_of_group groups))).
  { unfold deduplicate_companies. destruct companies as [|r companies].
    - simpl in Hgroups. by injection Hgroups as <-.
    - by rewrite Hgroups, bind_Ok, (dedupe_fold_Ok groups [] Hok). }
  destruct (get_dedup_stats_Ok companies _ Hmerge Hsrc) as (stats & Hstats & Hc & _).
  exists groups, (concat (map merged_of_group groups)), stats.
  split_and!; [done | done | done | by rewrite Hc, Hcount |].
  rewrite Hc, Hcount. apply inj_le.
  induction groups as [|g groups' IH]; [done|].
  rewrite !filter_cons.
  assert (IH' : (length (filter (λ g, multi_source g = true) groups')
                 ≤ length (filter (λ g : list record, 2 ≤ length g)%nat groups'))%nat).
  { clear -groups'. induction groups' as [|g groups IH]; [done|].
    rewrite !filter_cons.
    destruct (multi_source g) eqn:Hm.
    - rewrite decide_True by done.
      rewrite decide_True by (by apply multi_source_multi_record). simpl. lia.
    - rewrite decide_False by done. case_decide; simpl; lia. }
  destruct (multi_source g) eqn:Hm.
  - rewrite decide_True by done.
    rewrite decide_True by (by apply multi_source_multi_record). simpl. lia.
  - rewrite decide_False by done. case_decide; simpl; lia.
Qed.

Lemma raw_test_companies : raw_records test_companies.
Proof.
  split_and!.
  - intros r Hr. unfold test_companies in Hr.
    repeat (apply elem_of_cons in Hr as [-> | Hr]);
      [by eexists; vm_compute.. | by apply elem_of_nil in Hr].
  - repeat (apply Forall_cons; split; [split; [by eexists | by (left + (right; eexists))]|]).
    constructor.
  - repeat (apply Forall_cons; split; [done|]). constructor.
Qed.

Lemma merged_sources_count_witness :
  raw_records test_companies
  ∧ ∃ groups deduped stats,
      _group_similar_companies token_sort_ratio test_companies = Ok groups
      ∧ deduplicate_companies token_sort_ratio test_companies = Ok deduped
      ∧ get_dedup_stats test_companies deduped = Ok stats
      ∧ companies_with_merged_sources stats
        = Z.of_nat (length (filter (λ g, multi_source g = true) groups)).
Proof.
  split; [exact raw_test_companies|].
  destruct (merged_sources_count token_sort_ratio test_companies
              raw_test_companies)
    as (groups & deduped & stats & Hg & Hd & Hs & Hc & _).
  exists groups, deduped, stats. exact (conj Hg (conj Hd (conj Hs Hc))).
Defined.

(** ** Degenerate inputs *)

Lemma well_formed_normalises (r : record) :
  well_formed r → ∃ n, normalized_name r = Ok n.
Proof.
  intros (s & Hs & _). unfold normalized_name, get_or. rewrite Hs. simpl.
  unfold _normalize_company_name. destruct (negb _); by eexists.
Qed.

Lemma well_formed_nonempty (r : record) : well_formed r → r ≠ ∅.
Proof. intros (s & Hs & _) ->. by rewrite lookup_empty in Hs. Qed.

Lemma group_single (ratio : string → string → Q) (r : record) (n : string) :
  normalized_name r = Ok n → _group_similar_companies ratio [r] = Ok [[r]].
Proof.
  intros Hn. unfold _group_similar_companies.
  rewrite mapM_result_cons, (normalized_pair_Ok r n Hn), bind_Ok.
  cbn [mapM_result]. rewrite bind_Ok. reflexivity.
Qed.

(** C10.  Deduplicating the empty list gives the empty list, the
    statistics of two empty lists report no duplicate removed, and a
    single well-formed record makes one group and comes out unchanged. *)
Theorem dedupe_degenerate_inputs (ratio : string → string → Q) (r : record) :
  well_formed r →
  deduplicate_companies ratio [] = Ok []
  ∧ (∃ stats, get_dedup_stats [] [] = Ok stats ∧ duplicates_removed stats = 0%Z)
  ∧ _group_similar_companies ratio [r] = Ok [[r]]
  ∧ _merge_company_group [r] = Ok (Some r)
  ∧ deduplicate_companies ratio [r] = Ok [r].
Proof.
  intros Hwf. destruct (well_formed_normalises r Hwf) as [n Hn].
  pose proof (group_single ratio r n Hn) as Hgroup.
  split_and!; [done | by eexists | done | done |].
  unfold deduplicate_companies. rewrite Hgroup, bind_Ok. simpl.
  by rewrite decide_False by (by apply well_formed_nonempty).
Qed.

Lemma dedupe_degenerate_inputs_witness :
  well_formed A0
  ∧ deduplicate_companies token_sort_ratio [A0] = Ok [A0].
Proof.
  assert (Hwf : well_formed A0).
  { exists "Nova". split; [by vm_compute | by vm_compute]. }
  split; [exact Hwf|].
  exact (proj2 (proj2 (proj2 (proj2
           (dedupe_degenerate_inputs token_sort_ratio A0 Hwf))))).
Defined.

(** * Further properties of the engine *)

(** ** The two loops of the grouping, exactly *)

Section GroupingExact.

Variable ratio : string → string → Q.

Lemma enumerate_from_fst {A} (k : nat) (l : list A) :
  (enumerate_from k l).*1 = seq k (length l).
Proof.
  revert k. induction l as [|x l IH]; intros k; simpl; [done|]. by rewrite IH.
Qed.

Lemma enumerate_NoDup_fst {A} (l : list A) : NoDup (enumerate l).*1.
Proof. unfold enumerate. rewrite enumerate_from_fst. apply NoDup_seq. Qed.

Lemma enumerate_from_snd {A} (k : nat) (l : list A) :
  (enumerate_from k l).*2 = l.
Proof.
  revert k. induction l as [|x l IH]; intros k; simpl; [done|]. by rewrite IH.
Qed.

Lemma NoDup_fst_inj {A B} (l : list (A * B)) (x y : A * B) :
  NoDup l.*1 → x ∈ l → y ∈ l → x.1 = y.1 → x = y.
Proof.
  induction l as [|z l IH]; simpl; [by intros _ ?%elem_of_nil|].
  intros [Hz Hnd]%NoDup_cons [-> | Hx]%elem_of_cons [-> | Hy]%elem_of_cons Heq.
  - done.
  - destruct Hz. rewrite Heq. by apply list_elem_of_fmap_2.
  - destruct Hz. rewrite <- Heq. by apply list_elem_of_fmap_2.
  - by apply IH.
Qed.

Lemma members_ext (es : list entry) (used used' : gset nat) (n : string) :
  (∀ e, e ∈ es → e.1 ∈ used ↔ e.1 ∈ used') →
  members ratio es used n = members ratio es used' n.
Proof.
  unfold members. induction es as [|e es IH]; intros Hext; [done|].
  rewrite !filter_cons, IH by (intros ? ?; apply Hext; set_solver).
  assert (He : e.1 ∈ used ↔ e.1 ∈ used') by (apply Hext; set_solver).
  repeat case_decide; naive_solver.
Qed.

Lemma members_cons (e : entry) (es : list entry) (used : gset nat) (n : string) :
  members ratio (e :: es) used n
  = if decide (e.1 ∉ used ∧ similar ratio n (name_of e) = true)
    then e :: members ratio es used n
    else members ratio es used n.
Proof. unfold members. by rewrite filter_cons. Qed.

(** The inner loop appends exactly the unmarked entries that match the
    seed, in their order, and marks them. *)
Lemma scan_exact (seed_name : string) (es : list entry) (used : gset nat)
    (group : list record) :
  NoDup es.*1 →
  foldl (scan_step ratio seed_name) (used, group) es
  = (list_to_set (members ratio es used seed_name).*1 ∪ used,
     group ++ map record_of (members ratio es used seed_name)).
Proof.
  revert used group. induction es as [|[j [nj cj]] es IH]; intros used group Hnd.
  { simpl. rewrite app_nil_r. f_equal. set_solver. }
  rewrite fmap_cons in Hnd. apply NoDup_cons in Hnd as [Hj Hnd]. simpl in Hj.
  cbn [foldl]. unfold scan_step at 2. rewrite members_cons.
  change (name_of (j, (nj, cj))) with nj. cbn [fst].
  case_bool_decide as Hused.
  - rewrite decide_False by naive_solver. by apply IH.
  - destruct (similar ratio seed_name nj) eqn:Hsim.
    + rewrite decide_True by done. rewrite IH by done.
      assert (members ratio es ({[j]} ∪ used) seed_name
              = members ratio es used seed_name) as ->.
      { apply members_ext. intros e He.
        assert (e.1 ≠ j) by (intros <-; apply Hj; by apply list_elem_of_fmap_2).
        set_solver. }
      simpl. rewrite <- app_assoc. f_equal. set_solver.
    + rewrite decide_False by naive_solver. by apply IH.
Qed.

Lemma group_step_exact (names : list (string * record)) (used : gset nat)
    (groups : list (list record)) (i : nat) (ni : string) (ci : record) :
  group_step ratio names (used, groups) (i, (ni, ci))
  = if bool_decide (i ∈ used) then (used, groups)
    else
      (list_to_set (members ratio (enumerate names) ({[i]} ∪ used) ni).*1
         ∪ ({[i]} ∪ used),
       groups
         ++ [ci :: map record_of
                     (members ratio (enumerate names) ({[i]} ∪ used) ni)]).
Proof.
  unfold group_step. case_bool_decide; [done|].
  by rewrite scan_exact by apply enumerate_NoDup_fst.
Qed.

Lemma similar_same_name (n : string) : n ≠ "" → similar ratio n n = true.
Proof.
  intros Hn. apply similar_true. by rewrite similarity_equal.
Qed.

Lemma elem_of_members (es : list entry) (used : gset nat) (n : string) (e : entry) :
  e ∈ members ratio es used n
  ↔ e ∈ es ∧ e.1 ∉ used ∧ similar ratio n (name_of e) = true.
Proof. unfold members. rewrite list_elem_of_filter. naive_solver. Qed.

Lemma elem_of_concat {A} (ls : list (list A)) (x : A) :
  x ∈ concat ls ↔ ∃ l, l ∈ ls ∧ x ∈ l.
Proof.
  induction ls as [|l ls IH]; simpl.
  - split; [by intros ?%elem_of_nil | by intros (? & ?%elem_of_nil & _)].
  - rewrite elem_of_app, IH. split.
    + intros [? | (l' & ? & ?)]; [exists l | exists l']; set_solver.
    + intros (l' & [-> | ?]%elem_of_cons & ?); [by left | right; eauto].
Qed.

Lemma seed_and_members_sublist (P : entry → Prop) `{∀ x, Decision (P x)}
    (pre post : list entry) (e : entry) :
  (∀ x, x ∈ pre → ¬ P x) → ¬ P e →
  e :: filter P (pre ++ e :: post) `sublist_of` pre ++ e :: post.
Proof.
  intros Hpre He. rewrite filter_app, filter_cons, decide_False by done.
  assert (filter P pre = []) as ->.
  { induction pre as [|x pre IH]; [done|].
    rewrite filter_cons, decide_False by (apply Hpre; set_solver).
    apply IH. intros ? ?. apply Hpre. set_solver. }
  simpl. apply sublist_inserts_l. constructor. apply sublist_filter.
Qed.

Lemma grouping_state_step (names : list (string * record))
    (pre post : list entry) (e : entry) (gs : list (list entry))
    (st : gset nat * list (list record)) :
  enumerate names = pre ++ e :: post →
  grouping_state ratio (enumerate names) pre gs st →
  ∃ gs', grouping_state ratio (enumerate names) (pre ++ [e]) gs'
           (group_step ratio names st e).
Proof.
  intros HE (Hgroups & Hnd & Hin & Hpre & Hsub & Hseeds & Hsame & Hcompl
             & Hlater & Hseeded).
  pose proof (enumerate_NoDup_fst names) as HndE.
  assert (He : e ∈ enumerate names) by (rewrite HE; set_solver).
  destruct st as [used groups], e as [i [ni ci]].
  rewrite group_step_exact. cbn [fst snd] in *. case_bool_decide as Hi.
  { exists gs. split_and!; try done.
    - intros e' [He' | ->%list_elem_of_singleton]%elem_of_app; [by apply Hpre | done].
    - by apply sublist_inserts_r. }
  set (S := members ratio (enumerate names) ({[i]} ∪ used) ni).
  set (e := (i, (ni, ci)) : entry) in *.
  assert (HS : ∀ x, x ∈ S ↔ x ∈ enumerate names ∧ x.1 ∉ ({[i]} ∪ used : gset nat)
                           ∧ similar ratio ni (name_of x) = true)
    by (intros x; apply elem_of_members).
  assert (Hused' : ∀ x, x ∈ enumerate names →
            x.1 ∈ (list_to_set S.*1 ∪ ({[i]} ∪ used) : gset nat)
            ↔ x ∈ S ∨ x = e ∨ x.1 ∈ used).
  { intros x Hx. rewrite !elem_of_union, elem_of_list_to_set, elem_of_singleton.
    split.
    - intros [(y & Hxy & Hy)%list_elem_of_fmap | [Hxi | ?]]; [left | right; left | by do 2 right].
      + assert (x = y) as -> by (eapply NoDup_fst_inj; [done..| by apply HS |done]). done.
      + by eapply NoDup_fst_inj.
    - intros [Hx' | [-> | ?]]; [left | right; by left | by do 2 right].
      by apply list_elem_of_fmap_2. }
  assert (HeS : e ∉ S) by (intros [_ [Hn _]]%HS; set_solver).
  assert (Hfresh : ∀ x, x ∈ e :: S → x.1 ∉ used).
  { intros x [-> | [_ [Hn _]]%HS]%elem_of_cons; set_solver. }
  exists (gs ++ [e :: S]). split_and!; simpl.
  - by rewrite Hgroups, map_app.
  - rewrite concat_app. simpl. rewrite app_nil_r. apply NoDup_app. split_and!.
    + done.
    + intros x Hx Hx'. apply Hin in Hx as [_ Hx]. by apply Hfresh in Hx'.
    + apply NoDup_cons. split; [done|].
      apply NoDup_filter. by eapply NoDup_fmap_1.
  - intros x. rewrite concat_app. simpl. rewrite app_nil_r, elem_of_app, Hin.
    rewrite elem_of_cons. split.
    + intros [[Hx Hxu] | [-> | Hx]]; (split; [try done; by apply HS|]);
        apply Hused'; try done; [by do 2 right | by right; left | by apply HS | by left].
    + intros [Hx [? | [? | ?]]%Hused']; [by do 2 right | by right; left | by left | done].
  - intros x [Hx | ->%list_elem_of_singleton]%elem_of_app.
    + apply elem_of_union_r, elem_of_union_r. by apply Hpre.
    + set_solver.
  - apply Forall_app. split; [done|]. apply Forall_singleton. split; [done|].
    rewrite HE. unfold S, members. rewrite HE.
    apply seed_and_members_sublist.
    + intros x Hx [Hn _]. apply Hn. apply elem_of_union_r. by apply Hpre.
    + intros [Hn _]. set_solver.
  - rewrite omap_app. simpl. by apply sublist_app.
  - intros a b Ha Hb Hab Hne [HaS | [-> | Hau]]%Hused'; [| |..|done].
    + assert (Hbu : b.1 ∉ used).
      { intros Hbu. destruct (Hsame b a Hb Ha (eq_sym Hab)) as (g & Hg & _ & Hag);
          [by rewrite <- Hab | done |].
        assert (a ∈ concat gs) as [_ ?]%Hin
          by (apply elem_of_concat; eauto).
        by apply (Hfresh a); [set_solver|]. }
      exists (e :: S). split_and!; [set_solver | set_solver |].
      destruct (decide (b = e)) as [-> | Hbe]; [set_solver|].
      apply elem_of_cons. right. apply HS. split_and!; [done | |].
      * intros [Hbi%elem_of_singleton | ?]%elem_of_union; [|done].
        apply Hbe. by eapply NoDup_fst_inj.
      * rewrite <- Hab. by apply HS.
    + assert (Hbu : b.1 ∉ used).
      { intros Hbu. destruct (Hsame b e Hb He (eq_sym Hab)) as (g & Hg & _ & Hag);
          [by rewrite <- Hab | done |].
        assert (e ∈ concat gs) as [_ ?]%Hin
          by (apply elem_of_concat; eauto).
        done. }
      exists (e :: S). split_and!; [set_solver | set_solver |].
      destruct (decide (b = e)) as [-> | Hbe]; [set_solver|].
      apply elem_of_cons. right. apply HS. split_and!; [done | |].
      * intros [Hbi%elem_of_singleton | ?]%elem_of_union; [|done].
        apply Hbe. by eapply NoDup_fst_inj.
      * rewrite <- Hab. by apply similar_same_name.
    + destruct (Hsame a b Ha Hb Hab Hne Hau) as (g & Hg & ? & ?).
      exists g. set_solver.
  - intros g s x [Hg | ->%list_elem_of_singleton]%elem_of_app Hs Hx Hsim.
    + apply elem_of_union_r, elem_of_union_r. by eapply Hcompl.
    + injection Hs as <-. apply Hused'; [done|].
      destruct (decide (x = e)) as [-> | Hxe]; [by right; left|].
      destruct (decide (x.1 ∈ used)); [by do 2 right|]. left.
      apply HS. split_and!; [done | | done].
      intros [Hxi%elem_of_singleton | ?]%elem_of_union; [|done].
      apply Hxe. by eapply NoDup_fst_inj.
  - intros k1 k2 g1 g2 s x Hk Hg1 Hg2 Hs Hx.
    apply lookup_app_Some in Hg2 as [Hg2 | [Hlen Hg2]].
    + rewrite lookup_app_l in Hg1 by (apply lookup_lt_Some in Hg2; lia).
      by eapply Hlater.
    + apply list_lookup_singleton_Some in Hg2 as [Hk2 <-].
      rewrite lookup_app_l in Hg1 by lia.
      apply not_true_iff_false. intros Hsim.
      apply (Hfresh x Hx). eapply Hcompl; [by eapply list_elem_of_lookup_2 | done | | done].
      apply elem_of_cons in Hx as [-> | Hx]; [done | by apply HS].
  - apply Forall_app. split; [done|]. apply Forall_singleton.
    exists e, S. split; [done|]. intros x Hx. by apply HS.
Qed.

Lemma grouping_state_fold (names : list (string * record))
    (es pre : list entry) (gs : list (list entry))
    (st : gset nat * list (list record)) :
  enumerate names = pre ++ es →
  grouping_state ratio (enumerate names) pre gs st →
  ∃ gs', grouping_state ratio (enumerate names) (enumerate names) gs'
           (foldl (group_step ratio names) st es).
Proof.
  revert pre gs st. induction es as [|e es IH]; intros pre gs st HE Hst.
  { rewrite app_nil_r in HE. subst pre. by exists gs. }
  destruct (grouping_state_step names pre es e gs st HE Hst) as [gs' Hst'].
  apply (IH (pre ++ [e]) gs'); [by rewrite <- app_assoc | done].
Qed.

(** The groups of records come from groups of entries that partition the
    enumerated input. *)
Lemma group_loop_exact (names : list (string * record)) :
  ∃ gs used,
    group_loop ratio names = map (map record_of) gs
    ∧ concat gs ≡ₚ enumerate names
    ∧ grouping_state ratio (enumerate names) (enumerate names) gs
        (used, group_loop ratio names).
Proof.
  destruct (grouping_state_fold names (enumerate names) [] [] (∅, []))
    as [gs Hst]; [done | |].
  { unfold grouping_state. simpl. split_and!; try done; try set_solver.
    constructor. }
  unfold group_loop.
  destruct (foldl _ _ _) as [used groups]. exists gs, used.
  pose proof Hst as (Hgroups & Hnd & Hin & Hpre & _). simpl in *.
  split_and!; [done | | done].
  apply NoDup_Permutation; [done | |].
  - eapply NoDup_fmap_1. apply enumerate_NoDup_fst.
  - intros e. rewrite Hin. naive_solver.
Qed.

End GroupingExact.

Lemma mapM_normalized_pair_snd (companies : list record)
    (names : list (string * record)) :
  mapM_result normalized_pair companies = Ok names → names.*2 = companies.
Proof.
  revert names. induction companies as [|r companies IH]; intros names.
  - by intros [= <-].
  - rewrite mapM_result_cons.
    intros ([nr r'] & [-> Hr]%normalized_pair_inv
            & (names' & Hnames' & [= <-])%bind_Ok_inv)%bind_Ok_inv.
    rewrite fmap_cons. simpl. f_equal. by apply IH.
Qed.

Lemma records_of_enumerate (companies : list record)
    (names : list (string * record)) :
  mapM_result normalized_pair companies = Ok names →
  map record_of (enumerate names) = companies.
Proof.
  intros Hn. rewrite <- (mapM_normalized_pair_snd companies names Hn).
  rewrite <- (enumerate_from_snd 0 names) at 2. unfold enumerate.
  by rewrite <- list_fmap_compose.
Qed.

Lemma entry_normalised (companies : list record)
    (names : list (string * record)) (e : entry) :
  mapM_result normalized_pair companies = Ok names →
  e ∈ enumerate names →
  record_of e ∈ companies ∧ normalized_name (record_of e) = Ok (name_of e).
Proof.
  intros Hn He. destruct e as [j [n c]].
  apply (mapM_normalized_pair companies names Hn).
  apply enumerate_elem_of. eauto.
Qed.

(** ** Grouping: partition, order, completeness *)

Section GroupingTheorems.

Variable ratio : string → string → Q.

Lemma grouping_exact (companies : list record) :
  names_normalise companies →
  ∃ names gs used,
    mapM_result normalized_pair companies = Ok names
    ∧ _group_similar_companies ratio companies = Ok (map (map record_of) gs)
    ∧ concat gs ≡ₚ enumerate names
    ∧ grouping_state ratio (enumerate names) (enumerate names) gs
        (used, map (map record_of) gs).
Proof.
  intros Hall.
  destruct (group_similar_total ratio companies Hall) as (names & Hn & Hg).
  destruct (group_loop_exact ratio names) as (gs & used & Hgl & Hperm & Hst).
  exists names, gs, used. by rewrite <- Hgl.
Qed.

Lemma length_concat_nonempty {A} (ls : list (list A)) :
  Forall (λ l, l ≠ []) ls → (length ls ≤ length (concat ls))%nat.
Proof.
  induction 1 as [|l ls Hl _ IH]; simpl; [done|].
  rewrite length_app. destruct l; [done|]. simpl. lia.
Qed.

Lemma omap_head_fmap {A B} (f : A → B) (ls : list (list A)) :
  omap head (map (map f) ls) = map f (omap head ls).
Proof.
  induction ls as [|[|x l] ls IH]; [done | apply IH |].
  cbn. f_equal. apply IH.
Qed.

(** X1.  Grouping is a partition of the input: the groups, put end to
    end, hold the input records, each as often as the input does; no
    group is empty, so there are at most as many groups as records. *)
Theorem grouping_is_partition (companies : list record) :
  names_normalise companies →
  ∃ groups,
    _group_similar_companies ratio companies = Ok groups
    ∧ concat groups ≡ₚ companies
    ∧ Forall (λ g, g ≠ []) groups
    ∧ (length groups ≤ length companies)%nat.
Proof.
  intros Hall.
  destruct (grouping_exact companies Hall)
    as (names & gs & used & Hn & Hg & Hperm & Hst).
  exists (map (map record_of) gs).
  assert (Hconcat : concat (map (map record_of) gs) ≡ₚ companies).
  { rewrite <- concat_map, <- (records_of_enumerate companies names Hn).
    by apply Permutation_map. }
  assert (Hne : Forall (λ g : list record, g ≠ []) (map (map record_of) gs)).
  { destruct Hst as (_ & _ & _ & _ & Hsub & _).
    apply Forall_fmap. eapply Forall_impl; [exact Hsub|].
    intros [|??] [? _]; done. }
  split_and!; [done | done | done |].
  rewrite <- Hconcat. by apply length_concat_nonempty.
Qed.

(** X2.  Every group keeps the order of the input: it is a subsequence
    of the input list, and the first records of the groups, in the order
    of the groups, are a subsequence of the input list too. *)
Theorem groups_keep_input_order (companies : list record) :
  names_normalise companies →
  ∃ groups,
    _group_similar_companies ratio companies = Ok groups
    ∧ Forall (λ g, g `sublist_of` companies) groups
    ∧ omap head groups `sublist_of` companies.
Proof.
  intros Hall.
  destruct (grouping_exact companies Hall)
    as (names & gs & used & Hn & Hg & Hperm & Hst).
  exists (map (map record_of) gs).
  destruct Hst as (_ & _ & _ & _ & Hsub & Hseeds & _).
  pose proof (records_of_enumerate companies names Hn) as Hrec.
  split_and!; [done | |].
  - apply Forall_fmap. eapply Forall_impl; [exact Hsub|].
    intros g [_ Hg']. simpl. rewrite <- Hrec. by apply fmap_sublist.
  - rewrite omap_head_fmap, <- Hrec. by apply fmap_sublist.
Qed.

(** X3.  Two records whose names normalise to the same non-empty string
    are always put into the same group. *)
Theorem same_name_same_group (companies : list record) (a b : record)
    (n : string) :
  names_normalise companies →
  a ∈ companies → b ∈ companies →
  normalized_name a = Ok n → normalized_name b = Ok n → n ≠ "" →
  ∃ groups g,
    _group_similar_companies ratio companies = Ok groups
    ∧ g ∈ groups ∧ a ∈ g ∧ b ∈ g.
Proof.
  intros Hall Ha Hb Hna Hnb Hne.
  destruct (grouping_exact companies Hall)
    as (names & gs & used & Hn & Hg & Hperm & Hst).
  destruct Hst as (_ & _ & _ & Hpre & _ & _ & Hsame & _).
  pose proof (records_of_enumerate companies names Hn) as Hrec.
  rewrite <- Hrec in Ha, Hb.
  apply list_elem_of_fmap in Ha as (ea & -> & Hea), Hb as (eb & -> & Heb).
  destruct (entry_normalised companies names ea Hn Hea) as [_ Hna'].
  destruct (entry_normalised companies names eb Hn Heb) as [_ Hnb'].
  assert (name_of ea = n) by congruence.
  assert (name_of eb = n) by congruence.
  destruct (Hsame ea eb) as (g & Hgin & Hag & Hbg);
    [done | done | congruence | congruence | by apply Hpre |].
  exists (map (map record_of) gs), (map record_of g).
  split_and!; [done | | |]; by apply list_elem_of_fmap_2.
Qed.

(** X4.  In every group, every record after the first has a name whose
    similarity to the name of the first record reaches the threshold. *)
Theorem members_match_seed (companies : list record) :
  names_normalise companies →
  ∃ groups,
    _group_similar_companies ratio companies = Ok groups
    ∧ ∀ g, g ∈ groups →
        ∃ seed rest ns,
          g = seed :: rest
          ∧ normalized_name seed = Ok ns
          ∧ ∀ c, c ∈ rest →
              ∃ nc, normalized_name c = Ok nc
                    ∧ (85 <= _calculate_similarity ratio ns nc)%Q.
Proof.
  intros Hall.
  destruct (grouping_exact companies Hall)
    as (names & gs & used & Hn & Hg & Hperm & Hst).
  exists (map (map record_of) gs). split; [done|].
  destruct Hst as (_ & _ & Hin & _ & _ & _ & _ & _ & _ & Hseeded).
  intros g (ge & -> & Hge)%list_elem_of_fmap.
  rewrite Forall_forall in Hseeded.
  destruct (Hseeded ge Hge) as (s & rest & -> & Hrest).
  assert (Hmem : ∀ e, e ∈ s :: rest → e ∈ enumerate names).
  { intros e He. apply Hin, elem_of_concat. eauto. }
  exists (record_of s), (map record_of rest), (name_of s). split_and!; [done | |].
  - apply (entry_normalised companies names s Hn). apply Hmem. by left.
  - intros c (e & -> & He)%list_elem_of_fmap. exists (name_of e). split.
    + apply (entry_normalised companies names e Hn). apply Hmem. by right.
    + apply similar_true. by apply Hrest.
Qed.

(** X5.  No record of a later group matches the first record of an
    earlier group: its name stays below the threshold against the names
    of the first records of all the groups before its own. *)
Theorem later_groups_miss_earlier_seeds (companies : list record) :
  names_normalise companies →
  ∃ groups,
    _group_similar_companies ratio companies = Ok groups
    ∧ ∀ k1 k2 g1 g2 seed c ns nc,
        (k1 < k2)%nat → groups !! k1 = Some g1 → groups !! k2 = Some g2 →
        head g1 = Some seed → c ∈ g2 →
        normalized_name seed = Ok ns → normalized_name c = Ok nc →
        (_calculate_similarity ratio ns nc < 85)%Q.
Proof.
  intros Hall.
  destruct (grouping_exact companies Hall)
    as (names & gs & used & Hn & Hg & Hperm & Hst).
  exists (map (map record_of) gs). split; [done|].
  destruct Hst as (_ & _ & Hin & _ & _ & _ & _ & _ & Hlater & _).
  intros k1 k2 g1 g2 seed c ns nc Hk Hg1 Hg2 Hseed Hc Hns Hnc.
  apply list_lookup_fmap_Some in Hg1 as (ge1 & -> & Hge1).
  apply list_lookup_fmap_Some in Hg2 as (ge2 & -> & Hge2).
  apply list_elem_of_fmap in Hc as (e & -> & He).
  destruct ge1 as [|s ge1]; [done|]. injection Hseed as <-.
  assert (Hs : s ∈ enumerate names).
  { apply Hin, elem_of_concat. exists (s :: ge1).
    split; [by eapply list_elem_of_lookup_2 | by left]. }
  assert (He' : e ∈ enumerate names).
  { apply Hin, elem_of_concat. exists ge2.
    split; [by eapply list_elem_of_lookup_2 | done]. }
  destruct (entry_normalised companies names s Hn Hs) as [_ Hs'].
  destruct (entry_normalised companies names e Hn He') as [_ He''].
  assert (ns = name_of s) as -> by congruence.
  assert (nc = name_of e) as -> by congruence.
  apply similar_false. by eapply (Hlater k1 k2).
Qed.

End GroupingTheorems.

Lemma same_source_normalise : names_normalise [same_source_a; same_source_b].
Proof.
  intros r Hr.
  repeat (apply elem_of_cons in Hr as [-> | Hr]);
    [by eexists; vm_compute.. | by apply elem_of_nil in Hr].
Qed.

Lemma grouping_is_partition_witness :
  names_normalise [same_source_a; same_source_b]
  ∧ ∃ groups,
      _group_similar_companies token_sort_ratio [same_source_a; same_source_b]
      = Ok groups
      ∧ concat groups ≡ₚ [same_source_a; same_source_b]
      ∧ Forall (λ g, g ≠ []) groups
      ∧ (length groups ≤ 2)%nat.
Proof.
  split; [exact same_source_normalise|].
  exact (grouping_is_partition token_sort_ratio _ same_source_normalise).
Defined.

Lemma groups_keep_input_order_witness :
  names_normalise [same_source_a; same_source_b]
  ∧ ∃ groups,
      _group_similar_companies token_sort_ratio [same_source_a; same_source_b]
      = Ok groups
      ∧ Forall (λ g, g `sublist_of` [same_source_a; same_source_b]) groups
      ∧ omap head groups `sublist_of` [same_source_a; same_source_b].
Proof.
  split; [exact same_source_normalise|].
  exact (groups_keep_input_order token_sort_ratio _ same_source_normalise).
Defined.

Lemma same_name_same_group_witness :
  normalized_name same_source_a = Ok "foo"
  ∧ normalized_name same_source_b = Ok "foo"
  ∧ ∃ groups g,
      _group_similar_companies token_sort_ratio [same_source_a; same_source_b]
      = Ok groups
      ∧ g ∈ groups ∧ same_source_a ∈ g ∧ same_source_b ∈ g.
Proof.
  split; [by vm_compute|]. split; [by vm_compute|].
  apply (same_name_same_group token_sort_ratio
           [same_source_a; same_source_b] same_source_a same_source_b "foo").
  - exact same_source_normalise.
  - apply list_elem_of_here.
  - apply list_elem_of_further, list_elem_of_here.
  - by vm_compute.
  - by vm_compute.
  - done.
Defined.

Lemma members_match_seed_witness :
  names_normalise [same_source_a; same_source_b]
  ∧ ∃ groups,
      _group_similar_companies token_sort_ratio [same_source_a; same_source_b]
      = Ok groups
      ∧ ∀ g, g ∈ groups →
          ∃ seed rest ns,
            g = seed :: rest
            ∧ normalized_name seed = Ok ns
            ∧ ∀ c, c ∈ rest →
                ∃ nc, normalized_name c = Ok nc
                      ∧ (85 <= _calculate_similarity token_sort_ratio ns nc)%Q.
Proof.
  split; [exact same_source_normalise|].
  exact (members_match_seed token_sort_ratio _ same_source_normalise).
Defined.

Lemma chain_normalise : names_normalise [A0; B0; C0].
Proof.
  intros r Hr.
  repeat (apply elem_of_cons in Hr as [-> | Hr]);
    [by eexists; vm_compute.. | by apply elem_of_nil in Hr].
Qed.

Lemma later_groups_miss_earlier_seeds_witness :
  names_normalise [A0; B0; C0]
  ∧ ∃ groups,
      _group_similar_companies token_sort_ratio [A0; B0; C0] = Ok groups
      ∧ ∀ k1 k2 g1 g2 seed c ns nc,
          (k1 < k2)%nat → groups !! k1 = Some g1 → groups !! k2 = Some g2 →
          head g1 = Some seed → c ∈ g2 →
          normalized_name seed = Ok ns → normalized_name c = Ok nc →
          (_calculate_similarity token_sort_ratio ns nc < 85)%Q.
Proof.
  split; [exact chain_normalise|].
  exact (later_groups_miss_earlier_seeds token_sort_ratio _ chain_normalise).
Defined.

(** ** Deduplication as a whole *)

Section DedupeTheorems.

Variable ratio : string → string → Q.

(** On raw records every group merges without an exception, and the
    output is made of the contributions of the groups, in order. *)
Lemma dedupe_exact (companies : list record) :
  raw_records companies →
  ∃ groups,
    _group_similar_companies ratio companies = Ok groups
    ∧ deduplicate_companies ratio companies
      = Ok (concat (map merged_of_group groups))
    ∧ concat groups ≡ₚ companies
    ∧ Forall (λ g, g ≠ [] ∧ Forall mergeable g
                   ∧ Forall (λ r : record, r !! "sources" = None) g) groups.
Proof.
  intros (Hnames & Hmerge & Hnosrc).
  destruct (grouping_exact ratio companies Hnames)
    as (names & gs & used & Hn & Hg & Hperm & Hst).
  set (groups := map (map record_of) gs) in *.
  assert (Hconcat : concat groups ≡ₚ companies).
  { unfold groups. rewrite <- concat_map, <- (records_of_enumerate companies names Hn).
    by apply Permutation_map. }
  assert (Hall : Forall (λ g, g ≠ [] ∧ Forall mergeable g
                   ∧ Forall (λ r : record, r !! "sources" = None) g) groups).
  { apply Forall_forall. intros g Hgin.
    destruct (groups_members ratio companies groups Hg g Hgin) as [Hne Hin].
    rewrite Forall_forall in Hmerge, Hnosrc.
    split_and!; [done | |]; apply Forall_forall; auto. }
  destruct (count_groups groups Hall) as (Hok & _).
  exists groups. split_and!; [done | | done | done].
  unfold deduplicate_companies. destruct companies as [|r companies].
  - apply Permutation_nil_r in Hconcat.
    destruct groups as [|g groups']; [done|].
    apply Forall_cons in Hall as [[Hne _] _].
    simpl in Hconcat. by apply app_eq_nil in Hconcat as [? _].
  - by rewrite Hg, bind_Ok, (dedupe_fold_Ok groups [] Hok).
Qed.

Lemma merged_of_single (r : record) :
  merged_of_group [r] = if decide (r = ∅) then [] else [r].
Proof. done. Qed.

Lemma merged_of_multi (x y : record) (group : list record) :
  Forall mergeable (x :: y :: group) →
  ∃ merged,
    _merge_company_group (x :: y :: group) = Ok (Some merged)
    ∧ merged_of_group (x :: y :: group) = [merged]
    ∧ merged ≠ ∅.
Proof.
  intros Hall.
  destruct (merge_group_spec x y group Hall)
    as (first & rest & merged & _ & _ & Hmerge & Hsrc & _).
  assert (merged ≠ ∅) by (intros ->; by rewrite lookup_empty in Hsrc).
  exists merged. split_and!; [done | | done].
  unfold merged_of_group. rewrite Hmerge. simpl. by rewrite decide_False.
Qed.

(** X6.  On raw records, deduplication returns one record per group,
    except that a group made of a single empty dictionary gives none; so
    the output is never longer than the input, it holds no empty
    dictionary, and the statistics never report a negative number of
    duplicates removed. *)
Theorem dedupe_one_record_per_group (companies : list record) :
  raw_records companies →
  ∃ groups deduped stats,
    _group_similar_companies ratio companies = Ok groups
    ∧ deduplicate_companies ratio companies = Ok deduped
    ∧ length deduped = length (filter (λ g, g ≠ [∅]) groups)
    ∧ (length deduped ≤ length companies)%nat
    ∧ ∅ ∉ deduped
    ∧ get_dedup_stats companies deduped = Ok stats
    ∧ (0 ≤ duplicates_removed stats)%Z.
Proof.
  intros Hraw.
  destruct (dedupe_exact companies Hraw) as (groups & Hg & Hd & Hperm & Hall).
  assert (Hlen : length (concat (map merged_of_group groups))
                 = length (filter (λ g, g ≠ [∅]) groups)
                 ∧ ∅ ∉ concat (map merged_of_group groups)).
  { clear Hg Hd Hperm.
    induction Hall as [|g groups (Hne & Hm & _) _ [IH1 IH2]]; simpl.
    { split; [done | by intros ?%elem_of_nil]. }
    rewrite length_app, filter_cons, not_elem_of_app, IH1.
    destruct g as [|x [|y g]]; [done | |].
    - rewrite merged_of_single. destruct (decide (x = ∅)) as [-> | Hx].
      + rewrite decide_False by (by intros []). split; [done|].
        split; [by intros ?%elem_of_nil | done].
      + rewrite decide_True by congruence. simpl. split; [done|].
        split; [|done]. intros Heq%list_elem_of_singleton. congruence.
    - destruct (merged_of_multi x y g Hm) as (merged & _ & -> & Hmne).
      rewrite decide_True by done. simpl. split; [done|].
      split; [|done]. intros Heq%list_elem_of_singleton. congruence. }
  destruct Hlen as [Hlen Hempty].
  assert (Hle : (length (concat (map merged_of_group groups))
                 ≤ length companies)%nat).
  { rewrite Hlen, <- Hperm. etrans; [apply length_filter|].
    apply length_concat_nonempty. eapply Forall_impl; [exact Hall|].
    by intros ? [? _]. }
  destruct Hraw as (_ & Hmerge & _).
  destruct (count_groups groups Hall) as (_ & Hsrc & _).
  destruct (get_dedup_stats_Ok companies _ Hmerge Hsrc) as (stats & Hstats & _ & Hdup).
  exists groups, (concat (map merged_of_group groups)), stats.
  split_and!; [done.. |]. rewrite Hdup. lia.
Qed.

Lemma elem_of_deduped (groups : list (list record)) (m : record) :
  m ∈ concat (map merged_of_group groups)
  ↔ ∃ g, g ∈ groups ∧ m ∈ merged_of_group g.
Proof.
  rewrite elem_of_concat. split.
  - intros (l & (g & -> & Hg)%list_elem_of_fmap & Hm). eauto.
  - intros (g & Hg & Hm). exists (merged_of_group g).
    split; [by apply list_elem_of_fmap_2 | done].
Qed.

Lemma group_in_companies (companies : list record)
    (groups : list (list record)) (g : list record) (c : record) :
  concat groups ≡ₚ companies → g ∈ groups → c ∈ g → c ∈ companies.
Proof. intros <- Hg Hc. apply elem_of_concat. eauto. Qed.

(** X7.  On raw records, every output record takes all the fields that
    the merge policy does not touch (the name, the source, the dates, the
    executives and so on) from one and the same input record. *)
Theorem dedupe_provenance (companies : list record) :
  raw_records companies →
  ∃ deduped,
    deduplicate_companies ratio companies = Ok deduped
    ∧ ∀ m, m ∈ deduped →
        ∃ c, c ∈ companies
             ∧ ∀ k, k ∉ fill_keys → k ≠ "funding_round" → k ≠ "investors" →
                    k ≠ "sources" → m !! k = c !! k.
Proof.
  intros Hraw.
  destruct (dedupe_exact companies Hraw) as (groups & Hg & Hd & Hperm & Hall).
  exists (concat (map merged_of_group groups)). split; [done|].
  intros m (g & Hgin & Hm)%elem_of_deduped.
  rewrite Forall_forall in Hall. destruct (Hall g Hgin) as (Hne & Hmg & _).
  destruct g as [|x [|y g]]; [done | |].
  - rewrite merged_of_single in Hm. case_decide; [by apply elem_of_nil in Hm|].
    apply list_elem_of_singleton in Hm as ->.
    exists x. split; [|done]. eapply group_in_companies; [done.. | by left].
  - destruct (merge_group_spec x y g Hmg)
      as (first & rest & merged & Hsorted & _ & Hmerge & _ & _ & Hother & _).
    destruct (merged_of_multi x y g Hmg) as (merged' & Hmerge' & Hmo & _).
    rewrite Hmerge in Hmerge'. injection Hmerge' as <-.
    rewrite Hmo in Hm. apply list_elem_of_singleton in Hm as ->.
    exists first. split; [|done].
    eapply group_in_companies; [done.. |].
    rewrite <- (sorted_group_Permutation (x :: y :: g)), Hsorted. by left.
Qed.

(** X8.  On raw records, no source is lost: the non-empty source of every
    input record is found again in the output, either because the record
    itself is passed through, or in the sources list of a merged record. *)
Theorem dedupe_keeps_sources (companies : list record) :
  raw_records companies →
  ∃ deduped,
    deduplicate_companies ratio companies = Ok deduped
    ∧ ∀ c a, c ∈ companies → c !! "source" = Some (VAtom a) →
        atom_truthy a = true →
        ∃ m, m ∈ deduped
             ∧ (m = c ∨ ∃ srcs, m !! "sources" = Some (VList srcs) ∧ a ∈ srcs).
Proof.
  intros Hraw.
  destruct (dedupe_exact companies Hraw) as (groups & Hg & Hd & Hperm & Hall).
  exists (concat (map merged_of_group groups)). split; [done|].
  intros c a Hc Hsrc Ha. rewrite <- Hperm in Hc.
  apply elem_of_concat in Hc as (g & Hgin & Hcg).
  rewrite Forall_forall in Hall. destruct (Hall g Hgin) as (Hne & Hmg & _).
  destruct g as [|x [|y g]]; [done | |].
  - apply list_elem_of_singleton in Hcg as ->.
    exists x. split; [|by left]. apply elem_of_deduped. exists [x].
    split; [done|]. rewrite merged_of_single.
    rewrite decide_False by (intros ->; by rewrite lookup_empty in Hsrc).
    by apply list_elem_of_singleton.
  - destruct (merge_group_spec x y g Hmg)
      as (first & rest & merged & _ & _ & Hmerge & Hsources & _).
    destruct (merged_of_multi x y g Hmg) as (merged' & Hmerge' & Hmo & _).
    rewrite Hmerge in Hmerge'. injection Hmerge' as <-.
    exists merged. split.
    + apply elem_of_deduped. exists (x :: y :: g). split; [done|].
      rewrite Hmo. by apply list_elem_of_singleton.
    + right. eexists. split; [exact Hsources|].
      apply elem_of_remove_dups, elem_of_truthy_sources. eauto.
Qed.

(** X9.  On raw records, no investor is lost: every non-empty investor
    of every input record is among the investors of an output record. *)
Theorem dedupe_keeps_investors (companies : list record) :
  raw_records companies →
  ∃ deduped,
    deduplicate_companies ratio companies = Ok deduped
    ∧ ∀ c a, c ∈ companies → a ∈ investors_of c → atom_truthy a = true →
        ∃ m, m ∈ deduped ∧ a ∈ investors_of m.
Proof.
  intros Hraw.
  destruct (dedupe_exact companies Hraw) as (groups & Hg & Hd & Hperm & Hall).
  exists (concat (map merged_of_group groups)). split; [done|].
  intros c a Hc Hinv Ha. rewrite <- Hperm in Hc.
  apply elem_of_concat in Hc as (g & Hgin & Hcg).
  rewrite Forall_forall in Hall. destruct (Hall g Hgin) as (Hne & Hmg & _).
  destruct g as [|x [|y g]]; [done | |].
  - apply list_elem_of_singleton in Hcg as ->.
    exists x. split; [|done]. apply elem_of_deduped. exists [x].
    split; [done|]. rewrite merged_of_single.
    rewrite decide_False.
    + by apply list_elem_of_singleton.
    + intros ->. unfold investors_of in Hinv. rewrite lookup_empty in Hinv.
      by apply elem_of_nil in Hinv.
  - destruct (merge_group_spec x y g Hmg)
      as (first & rest & merged & Hsorted & _ & Hmerge & _ & Hinvs & _).
    destruct (merged_of_multi x y g Hmg) as (merged' & Hmerge' & Hmo & _).
    rewrite Hmerge in Hmerge'. injection Hmerge' as <-.
    exists merged. split.
    + apply elem_of_deduped. exists (x :: y :: g). split; [done|].
      rewrite Hmo. by apply list_elem_of_singleton.
    + rewrite Hinvs, elem_of_app, elem_of_dedup_first.
      rewrite list_elem_of_filter, elem_of_concat_investors.
      rewrite <- (sorted_group_Permutation (x :: y :: g)), Hsorted in Hcg.
      apply elem_of_cons in Hcg as [-> | Hcg]; [by left|].
      destruct (decide (a ∈ investors_of first)); [by left | right].
      split; [|done]. split; [done|]. eauto.
Qed.

End DedupeTheorems.

Lemma dedupe_one_record_per_group_witness :
  raw_records test_companies
  ∧ ∃ groups deduped stats,
      _group_similar_companies token_sort_ratio test_companies = Ok groups
      ∧ deduplicate_companies token_sort_ratio test_companies = Ok deduped
      ∧ length deduped = length (filter (λ g, g ≠ [∅]) groups)
      ∧ (length deduped ≤ length test_companies)%nat
      ∧ ∅ ∉ deduped
      ∧ get_dedup_stats test_companies deduped = Ok stats
      ∧ (0 ≤ duplicates_removed stats)%Z.
Proof.
  split; [exact raw_test_companies|].
  exact (dedupe_one_record_per_group token_sort_ratio _ raw_test_companies).
Defined.

Lemma dedupe_provenance_witness :
  raw_records test_companies
  ∧ ∃ deduped,
      deduplicate_companies token_sort_ratio test_companies = Ok deduped
      ∧ ∀ m, m ∈ deduped →
          ∃ c, c ∈ test_companies
               ∧ ∀ k, k ∉ fill_keys → k ≠ "funding_round" → k ≠ "investors" →
                      k ≠ "sources" → m !! k = c !! k.
Proof.
  split; [exact raw_test_companies|].
  exact (dedupe_provenance token_sort_ratio _ raw_test_companies).
Defined.

Lemma dedupe_keeps_sources_witness :
  raw_records test_companies
  ∧ ∃ deduped,
      deduplicate_companies token_sort_ratio test_companies = Ok deduped
      ∧ ∀ c a, c ∈ test_companies → c !! "source" = Some (VAtom a) →
          atom_truthy a = true →
          ∃ m, m ∈ deduped
               ∧ (m = c ∨ ∃ srcs, m !! "sources" = Some (VList srcs) ∧ a ∈ srcs).
Proof.
  split; [exact raw_test_companies|].
  exact (dedupe_keeps_sources token_sort_ratio _ raw_test_companies).
Defined.

Lemma dedupe_keeps_investors_witness :
  raw_records test_companies
  ∧ ∃ deduped,
      deduplicate_companies token_sort_ratio test_companies = Ok deduped
      ∧ ∀ c a, c ∈ test_companies → a ∈ investors_of c → atom_truthy a = true →
          ∃ m, m ∈ deduped ∧ a ∈ investors_of m.
Proof.
  split; [exact raw_test_companies|].
  exact (dedupe_keeps_investors token_sort_ratio _ raw_test_companies).
Defined.

(** ** Exceptions of the list traversals *)

Lemma mapM_result_cases {A B} (f : A → result B) (P : A → Prop) (e : exn)
    (l : list A) :
  (∀ x, x ∈ l → (P x ∧ ∃ y, f x = Ok y) ∨ (¬ P x ∧ f x = Raise e)) →
  (Forall P l ∧ ∃ ys, mapM_result f l = Ok ys)
  ∨ (¬ Forall P l ∧ mapM_result f l = Raise e).
Proof.
  induction l as [|x l IH]; intros Hf.
  { left. split; [constructor | by eexists]. }
  rewrite mapM_result_cons.
  destruct (Hf x) as [[HP [y ->]] | [HnP ->]]; [set_solver | |].
  - destruct IH as [[Hall [ys ->]] | [Hnall ->]];
      [intros ? ?; apply Hf; set_solver | |].
    + left. split; [by constructor | by eexists].
    + right. split; [|done]. by intros [_ ?]%Forall_cons.
  - right. split; [|done]. by intros [? _]%Forall_cons.
Qed.

Lemma foldM_result_cases {A B} (f : B → A → result B) (P : A → Prop) (e : exn)
    (l : list A) (b : B) :
  (∀ b x, x ∈ l → (P x ∧ ∃ b', f b x = Ok b') ∨ (¬ P x ∧ f b x = Raise e)) →
  (Forall P l ∧ ∃ b', foldM_result f b l = Ok b')
  ∨ (¬ Forall P l ∧ foldM_result f b l = Raise e).
Proof.
  revert b. induction l as [|x l IH]; intros b Hf.
  { left. split; [constructor | by eexists]. }
  rewrite foldM_result_cons.
  destruct (Hf b x) as [[HP [b' ->]] | [HnP ->]]; [set_solver | |].
  - destruct (IH b') as [[Hall [b'' Hb'']] | [Hnall Hr]];
      [intros ? ? ?; apply Hf; set_solver | |].
    + left. split; [by constructor | by exists b''].
    + right. split; [|done]. by intros [_ ?]%Forall_cons.
  - right. split; [|done]. by intros [? _]%Forall_cons.
Qed.

(** ** Statistics: counts by source and exceptions *)

Lemma count_of_count_source (a s : atom) (d : list (atom * Z)) :
  count_of a (count_source s d)
  = if decide (s = a) then (count_of a d + 1)%Z else count_of a d.
Proof.
  induction d as [|[k n] d IH]; simpl.
  - destruct (decide (s = a)); done.
  - destruct (decide (k = s)) as [-> | Hks]; simpl.
    + destruct (decide (s = a)); done.
    + rewrite IH. destruct (decide (k = a)) as [-> | Hka]; [|done].
      by rewrite decide_False by congruence.
Qed.

Lemma count_source_keys (s : atom) (d : list (atom * Z)) :
  NoDup d.*1 →
  NoDup (count_source s d).*1
  ∧ ∀ a, a ∈ (count_source s d).*1 ↔ a = s ∨ a ∈ d.*1.
Proof.
  induction d as [|[k n] d IH]; intros Hnd.
  - split; [apply NoDup_singleton|]. intros a. simpl.
    rewrite list_elem_of_singleton, elem_of_nil. naive_solver.
  - rewrite fmap_cons in Hnd. apply NoDup_cons in Hnd as [Hk Hnd].
    destruct (IH Hnd) as [IH1 IH2]. cbn [count_source].
    destruct (decide (k = s)) as [-> | Hks]; rewrite !fmap_cons; cbn [fst].
    + split; [by apply NoDup_cons|]. intros a. rewrite !elem_of_cons. naive_solver.
    + split.
      * apply NoDup_cons. split; [|done]. rewrite IH2. naive_solver.
      * intros a. rewrite !elem_of_cons, IH2. naive_solver.
Qed.

Lemma count_source_sum (s : atom) (d : list (atom * Z)) :
  foldr Z.add 0%Z (count_source s d).*2 = (foldr Z.add 0%Z d.*2 + 1)%Z.
Proof.
  induction d as [|[k n] d IH]; [done|]. cbn [count_source].
  destruct (decide (k = s)); rewrite !fmap_cons; cbn [foldr snd];
    [lia | rewrite IH; lia].
Qed.

Lemma count_of_positive (a : atom) (d : list (atom * Z)) :
  Forall (λ p : atom * Z, (0 < p.2)%Z) d →
  (a ∈ d.*1 ↔ (0 < count_of a d)%Z).
Proof.
  induction 1 as [|[k n] d Hn _ IH]; simpl; [set_solver by lia|].
  rewrite elem_of_cons, IH. destruct (decide (k = a)) as [-> | Hka]; [naive_solver|].
  naive_solver.
Qed.

Lemma count_source_positive (s : atom) (d : list (atom * Z)) :
  Forall (λ p : atom * Z, (0 < p.2)%Z) d →
  Forall (λ p : atom * Z, (0 < p.2)%Z) (count_source s d).
Proof.
  induction 1 as [|[k n] d Hn Hd IH]; simpl; [by repeat constructor|].
  destruct (decide (k = s)); constructor; simpl in *; try done; lia.
Qed.

Lemma by_source_spec (original : list record) (d d' : list (atom * Z)) :
  foldM_result
    (λ d c, source ← hashable (get_or c "source" (VStr "Unknown"));
            Ok (count_source source d))
    d original
  = Ok d' →
  NoDup d.*1 → Forall (λ p : atom * Z, (0 < p.2)%Z) d →
  NoDup d'.*1
  ∧ Forall (λ p : atom * Z, (0 < p.2)%Z) d'
  ∧ (∀ a, count_of a d' = (count_of a d + Z.of_nat (occurrences a original))%Z)
  ∧ foldr Z.add 0%Z d'.*2
    = (foldr Z.add 0%Z d.*2 + Z.of_nat (length original))%Z.
Proof.
  revert d. induction original as [|c original IH]; intros d.
  { intros [= <-] Hnd Hpos. split_and!; [done | done | |].
    - intros a. unfold occurrences. cbn [filter list_filter length]. lia.
    - cbn [length]. lia. }
  rewrite foldM_result_cons.
  intros (d1 & (s & Hs & [= <-])%bind_Ok_inv & Hfold)%bind_Ok_inv Hnd Hpos.
  destruct (count_source_keys s d Hnd) as [Hnd1 _].
  destruct (IH _ Hfold Hnd1 (count_source_positive s d Hpos))
    as (Hnd' & Hpos' & Hcount & Hsum).
  split_and!; [done | done | |].
  - intros a. rewrite Hcount, count_of_count_source.
    unfold occurrences. rewrite filter_cons.
    change (get_or c "source" (VStr "Unknown")) with (source_key c) in Hs.
    destruct (source_key c) as [s'|l]; [|done].
    simpl in Hs. injection Hs as <-.
    destruct (decide (s' = a)) as [-> | Hne].
    + rewrite decide_True by done. simpl. lia.
    + rewrite decide_False by congruence. lia.
  - rewrite Hsum, count_source_sum. simpl. lia.
Qed.

(** X10.  When the statistics are returned, the dictionary of counts by
    source holds each source once, with the number of original records of
    that source (a record without source counting under "Unknown"), and
    only sources that occur; the counts add up to the number of original
    records; and the number of duplicates removed is the difference of
    the two lengths. *)
Theorem stats_count_by_source (original deduped : list record)
    (stats : dedup_stats) :
  get_dedup_stats original deduped = Ok stats →
  NoDup (original_by_source stats).*1
  ∧ (∀ a, count_of a (original_by_source stats)
          = Z.of_nat (occurrences a original))
  ∧ (∀ a, a ∈ (original_by_source stats).*1
          ↔ ∃ c, c ∈ original ∧ source_key c = VAtom a)
  ∧ foldr Z.add 0%Z (original_by_source stats).*2 = original_count stats
  ∧ original_count stats = Z.of_nat (length original)
  ∧ deduplicated_count stats = Z.of_nat (length deduped)
  ∧ duplicates_removed stats
    = (Z.of_nat (length original) - Z.of_nat (length deduped))%Z.
Proof.
  unfold get_dedup_stats.
  intros (d & Hd & (flags & _ & [= <-])%bind_Ok_inv)%bind_Ok_inv. simpl.
  destruct (by_source_spec original [] d Hd) as (Hnd & Hpos & Hcount & Hsum);
    [constructor | constructor |].
  split_and!; [done | | | | done..].
  - intros a. by rewrite Hcount.
  - intros a. rewrite (count_of_positive a d Hpos), Hcount. simpl.
    unfold occurrences. split.
    + intros Hlt. destruct (filter _ original) as [|c l] eqn:Hf; [simpl in Hlt; lia|].
      assert (Hc : c ∈ filter (λ c, source_key c = VAtom a) original)
        by (rewrite Hf; by left).
      apply list_elem_of_filter in Hc as [? ?]. eauto.
    + intros (c & Hc & Hkey).
      assert (Hc' : c ∈ filter (λ c, source_key c = VAtom a) original)
        by (by apply list_elem_of_filter).
      destruct (filter _ original); [by apply elem_of_nil in Hc'|]. simpl. lia.
  - rewrite Hsum. simpl. lia.
Qed.

Lemma stats_count_by_source_witness :
  get_dedup_stats [same_source_a; same_source_b] [] = Ok same_source_stats
  ∧ count_of (AStr "TechCrunch") (original_by_source same_source_stats)
    = Z.of_nat (occurrences (AStr "TechCrunch") [same_source_a; same_source_b]).
Proof.
  assert (H : get_dedup_stats [same_source_a; same_source_b] []
              = Ok same_source_stats) by reflexivity.
  split; [exact H|].
  exact (proj1 (proj2 (stats_count_by_source _ _ _ H)) (AStr "TechCrunch")).
Defined.

Lemma by_source_cases (original : list record) (d : list (atom * Z)) :
  (Forall (λ c, ∃ a, source_key c = VAtom a) original
   ∧ ∃ d', foldM_result
             (λ d c, source ← hashable (get_or c "source" (VStr "Unknown"));
                     Ok (count_source source d))
             d original = Ok d')
  ∨ (¬ Forall (λ c, ∃ a, source_key c = VAtom a) original
     ∧ foldM_result
         (λ d c, source ← hashable (get_or c "source" (VStr "Unknown"));
                 Ok (count_source source d))
         d original = Raise TypeError).
Proof.
  apply foldM_result_cases. intros d0 c _. unfold source_key.
  destruct (get_or c "source" (VStr "Unknown")) as [a|l]; simpl.
  - left. split; by eexists.
  - right. split; [by intros [? ?] | done].
Qed.

Lemma merged_flags_cases (deduped : list record) :
  (Forall (λ c, sized (get_or c "sources" (VList []))) deduped
   ∧ ∃ flags, mapM_result has_merged_sources deduped = Ok flags)
  ∨ (¬ Forall (λ c, sized (get_or c "sources" (VList []))) deduped
     ∧ mapM_result has_merged_sources deduped = Raise TypeError).
Proof.
  apply mapM_result_cases. intros c _. unfold has_merged_sources.
  destruct (get_or c "sources" (VList [])) as [[|n|s]|l]; simpl.
  - right. split; [intros [] | done].
  - right. split; [intros [] | done].
  - left. split; [exact I | by eexists].
  - left. split; [exact I | by eexists].
Qed.

(** X11.  The statistics are returned exactly when the source of every
    original record is hashable (anything but a list) and the sources of
    every deduplicated record, when present, are a list or a string; on
    all other inputs the function raises a [TypeError]. *)
Theorem stats_exceptions (original deduped : list record) :
  (countable_inputs original deduped →
   ∃ stats, get_dedup_stats original deduped = Ok stats)
  ∧ (¬ countable_inputs original deduped →
     get_dedup_stats original deduped = Raise TypeError)
  ∧ ((∃ stats, get_dedup_stats original deduped = Ok stats) →
     countable_inputs original deduped).
Proof.
  unfold get_dedup_stats, countable_inputs.
  destruct (by_source_cases original []) as [[Ho [d ->]] | [Hno ->]];
    [|split_and!; [by intros [? _] | done | by intros [? ?]]].
  rewrite bind_Ok.
  destruct (merged_flags_cases deduped) as [[Hd [flags ->]] | [Hnd ->]].
  - split_and!; [by eexists | by intros [] | done].
  - split_and!; [by intros [_ ?] | done | by intros [? ?]].
Qed.

(** ** Exceptions of the merge and of the grouping *)

Lemma keyed_cases (group : list record) :
  (Forall (λ c, ∃ a, get_or c "source" (VStr "") = VAtom a) group
   ∧ ∃ ks, mapM_result keyed group = Ok ks)
  ∨ (¬ Forall (λ c, ∃ a, get_or c "source" (VStr "") = VAtom a) group
     ∧ mapM_result keyed group = Raise TypeError).
Proof.
  apply mapM_result_cases. intros c _. unfold keyed, sort_key.
  destruct (get_or c "source" (VStr "")) as [[|n|s]|l]; simpl.
  - left. split; by eexists.
  - left. split; by eexists.
  - left. split; by eexists.
  - right. split; [by intros [? ?] | done].
Qed.

(** X12.  The merge of a group of two or more records raises a
    [TypeError] when the source of one of its records is a list, whatever
    the other fields are; a group of one record is returned as it is even
    then. *)
Theorem merge_unhashable_source (x y : record) (group : list record) :
  Exists (λ c, ∃ l, c !! "source" = Some (VList l)) (x :: y :: group) →
  _merge_company_group (x :: y :: group) = Raise TypeError
  ∧ ∀ c, _merge_company_group [c] = Ok (Some c).
Proof.
  intros Hex. split; [|done].
  unfold _merge_company_group, sorted_by_priority.
  destruct (keyed_cases (x :: y :: group)) as [[Hall _] | [_ ->]]; [|done].
  exfalso. apply Exists_exists in Hex as (c & Hc & l & Hl).
  rewrite Forall_forall in Hall. destruct (Hall c Hc) as [a Ha].
  unfold get_or in Ha. by rewrite Hl in Ha.
Qed.

Lemma merge_unhashable_source_witness :
  Exists (λ c, ∃ l, c !! "source" = Some (VList l))
         [same_source_a; list_source]
  ∧ _merge_company_group [same_source_a; list_source] = Raise TypeError.
Proof.
  assert (H : Exists (λ c, ∃ l, c !! "source" = Some (VList l))
                     [same_source_a; list_source]).
  { apply Exists_cons_tl, Exists_cons_hd. by eexists. }
  split; [exact H|].
  exact (proj1 (merge_unhashable_source same_source_a list_source [] H)).
Defined.

Lemma normalized_pair_cases (companies : list record) :
  (Forall (λ c, ∃ n, normalized_name c = Ok n) companies
   ∧ ∃ names, mapM_result normalized_pair companies = Ok names)
  ∨ (¬ Forall (λ c, ∃ n, normalized_name c = Ok n) companies
     ∧ mapM_result normalized_pair companies = Raise AttributeError).
Proof.
  apply mapM_result_cases. intros c _. unfold normalized_pair.
  destruct (normalized_name c) as [n|e] eqn:Hn.
  - left. split; eexists; reflexivity.
  - right. assert (He : e = AttributeError).
    { unfold normalized_name, _normalize_company_name in Hn.
      destruct (negb (truthy _)); [discriminate|].
      destruct (get_or c "company_name" (VStr "")) as [[|k|s]|l];
        congruence. }
    subst e. split; [intros [? ?]; discriminate | reflexivity].
Qed.

(** X13.  Grouping and deduplication raise an [AttributeError] as soon
    as the name of one input record is neither missing, nor falsy, nor a
    string; grouping succeeds on every other input. *)
Theorem grouping_exceptions (ratio : string → string → Q)
    (companies : list record) :
  (names_normalise companies →
   ∃ groups, _group_similar_companies ratio companies = Ok groups)
  ∧ (¬ names_normalise companies →
     _group_similar_companies ratio companies = Raise AttributeError
     ∧ deduplicate_companies ratio companies = Raise AttributeError).
Proof.
  split.
  - intros Hall. destruct (group_similar_total ratio companies Hall)
      as (names & _ & ->). by eexists.
  - intros Hn.
    assert (Hne : companies ≠ []).
    { intros ->. apply Hn. by intros ? ?%elem_of_nil. }
    assert (Hg : _group_similar_companies ratio companies = Raise AttributeError).
    { unfold _group_similar_companies. destruct companies as [|c companies]; [done|].
      destruct (normalized_pair_cases (c :: companies)) as [[Hall _] | [_ ->]]; [|done].
      destruct Hn. intros r Hr. by apply (proj1 (Forall_forall _ _) Hall). }
    split; [done|]. unfold deduplicate_companies.
    destruct companies; [done|]. by rewrite Hg.
Qed.

Lemma grouping_exceptions_witness :
  ¬ names_normalise [number_name]
  ∧ deduplicate_companies token_sort_ratio [number_name] = Raise AttributeError.
Proof.
  assert (H : ¬ names_normalise [number_name]).
  { intros Hn. destruct (Hn number_name) as [n Hn']; [apply list_elem_of_here|].
    vm_compute in Hn'. discriminate. }
  split; [exact H|].
  exact (proj2 (proj2 (grouping_exceptions token_sort_ratio [number_name]) H)).
Defined.

Lemma stats_exceptions_witness :
  ¬ countable_inputs [list_source] []
  ∧ get_dedup_stats [list_source] [] = Raise TypeError.
Proof.
  assert (H : ¬ countable_inputs [list_source] []).
  { intros [Ho _]. apply Forall_cons in Ho as [[a Ha] _].
    vm_compute in Ha. discriminate. }
  split; [exact H|].
  exact (proj1 (proj2 (stats_exceptions [list_source] [])) H).
Defined.

(** ** The funding round over the whole merge *)

Lemma specific_replaceable (v : value) :
  specific v = true → replaceable v = true → v = VStr "Equity".
Proof.
  unfold specific, replaceable.
  intros [Ht Hu%negb_true_iff]%andb_true_iff Hr%bool_decide_eq_true.
  apply bool_decide_eq_false in Hu.
  apply elem_of_cons in Hr as [Hr | Hr]; [by subst v|].
  apply elem_of_cons in Hr as [Hr | Hr]; [done|].
  apply list_elem_of_singleton in Hr. by subst v.
Qed.

Lemma get_Equity (c : record) :
  get c "funding_round" = VStr "Equity" →
  c !! "funding_round" = Some (VStr "Equity").
Proof.
  unfold get. destruct (c !! "funding_round") as [v|]; simpl; intros Heq;
    [by subst v | discriminate].
Qed.

Lemma merge_fold_round (rest : list record) (merged merged' : record) :
  investors_ok merged → Forall investors_ok rest →
  foldM_result merge_step merged rest = Ok merged' →
  merged' !! "funding_round" = resolved_round merged rest.
Proof.
  intros Hm Hrest. revert merged Hm.
  induction Hrest as [|c rest Hc _ IH]; intros merged Hm.
  { intros [= <-]. unfold resolved_round. simpl. by destruct (replaceable _). }
  rewrite foldM_result_cons.
  destruct (merge_step_spec merged c Hm Hc)
    as (m1 & -> & Hok1 & _ & Hfr1 & _ & _).
  rewrite bind_Ok. intros Hfold. rewrite (IH m1 Hok1 Hfold). clear IH Hfold.
  pose proof (get_ext m1) as Hext.
  unfold resolved_round. cbn [find existsb]. unfold decisive.
  destruct (replaceable (get merged "funding_round")) eqn:Hrm.
  - destruct (specific (get c "funding_round")) eqn:Hsc.
    + cbn [andb] in Hfr1. rewrite (Hext c _ Hfr1), Hfr1.
      destruct (replaceable (get c "funding_round")) eqn:Hrc; cbn [andb negb].
      * pose proof (specific_replaceable _ Hsc Hrc) as Heq.
        rewrite (bool_decide_eq_true_2 _ Heq). cbn [orb].
        destruct (find _ rest); [done|].
        rewrite (get_Equity _ Heq). by destruct (existsb _ rest).
      * done.
    + cbn [andb] in Hfr1. rewrite (Hext merged _ Hfr1), Hrm, Hfr1.
      cbn [andb]. rewrite bool_decide_eq_false_2; [done|].
      intros Heq. by rewrite Heq in Hsc.
  - cbn [andb] in Hfr1. by rewrite (Hext merged _ Hfr1), Hrm.
Qed.

Lemma merge_group_fold (x y : record) (group : list record)
    (first : record) (rest : list record) :
  Forall mergeable (x :: y :: group) →
  sorted_group (x :: y :: group) = first :: rest →
  investors_ok first ∧ Forall investors_ok rest
  ∧ _merge_company_group (x :: y :: group)
    = (merged ← foldM_result merge_step
                 (<["sources" := VList (remove_dups
                                          (truthy_sources (x :: y :: group)))]>
                    first) rest;
       Ok (Some merged)).
Proof.
  intros Hall Hsorted.
  assert (Hall' : Forall mergeable (first :: rest)).
  { rewrite <- Hsorted. by rewrite sorted_group_Permutation. }
  apply Forall_cons in Hall' as [[_ Hfirst] Hrest].
  split_and!; [done | |].
  - eapply Forall_impl; [exact Hrest|]. by intros ? [_ ?].
  - unfold _merge_company_group.
    rewrite (sorted_by_priority_Ok _ Hall), bind_Ok, Hsorted.
    by rewrite (all_sources_Ok _ Hall), bind_Ok.
Qed.

Lemma merge_group_round (x y : record) (group : list record)
    (first merged : record) (rest : list record) :
  Forall mergeable (x :: y :: group) →
  sorted_group (x :: y :: group) = first :: rest →
  _merge_company_group (x :: y :: group) = Ok (Some merged) →
  merged !! "funding_round" = resolved_round first rest.
Proof.
  intros Hall Hsorted.
  destruct (merge_group_fold x y group first rest Hall Hsorted)
    as (Hfirst & Hrest & ->).
  intros (m & Hfold & [= ->])%bind_Ok_inv.
  rewrite (merge_fold_round rest _ merged) with (2 := Hrest) (3 := Hfold).
  - unfold resolved_round, get. by rewrite lookup_insert_ne.
  - unfold investors_ok. by rewrite lookup_insert_ne.
Qed.

(** X14.  The funding round of a merged record, over the whole merge: when
    the round of the highest-priority record is not generic it is kept;
    otherwise the round is that of the first record, in priority order,
    whose round is decisive (non-empty and none of "Unknown", "Equity"),
    and without such a record it is "Equity" if a later record says so,
    else it stays as it was.  So a generic label never survives when a
    record of the group has a decisive one. *)
Theorem funding_round_resolution (x y : record) (group : list record) :
  Forall mergeable (x :: y :: group) →
  ∃ first rest merged,
    sorted_group (x :: y :: group) = first :: rest
    ∧ _merge_company_group (x :: y :: group) = Ok (Some merged)
    ∧ merged !! "funding_round" = resolved_round first rest
    ∧ (replaceable (get first "funding_round") = true →
       (∃ c, c ∈ rest ∧ decisive (get c "funding_round") = true) →
       decisive (get merged "funding_round") = true).
Proof.
  intros Hall.
  destruct (merge_group_spec x y group Hall)
    as (first & rest & merged & Hsorted & _ & Hmerge & _).
  pose proof (merge_group_round x y group first merged rest Hall Hsorted Hmerge)
    as Hround.
  exists first, rest, merged. split_and!; [done | done | done |].
  intros Hrep (c & Hc & Hdec). unfold get at 1. rewrite Hround.
  unfold resolved_round. rewrite Hrep.
  destruct (find _ rest) as [c'|] eqn:Hfind.
  - by apply find_some in Hfind as [_ Hdec'].
  - apply find_none with (x := c) in Hfind; [congruence|].
    by apply list_elem_of_In.
Qed.

Lemma funding_round_resolution_witness :
  Forall mergeable [round_news_equity; round_series_a; round_unknown]
  ∧ ∃ first rest merged,
      sorted_group [round_news_equity; round_series_a; round_unknown]
      = first :: rest
      ∧ _merge_company_group [round_news_equity; round_series_a; round_unknown]
        = Ok (Some merged)
      ∧ merged !! "funding_round" = resolved_round first rest.
Proof.
  assert (Hall : Forall mergeable
                   [round_news_equity; round_series_a; round_unknown]).
  { repeat constructor; by eauto. }
  split; [exact Hall|].
  destruct (funding_round_resolution _ _ _ Hall)
    as (first & rest & merged & H1 & H2 & H3 & _).
  exact (ex_intro _ first (ex_intro _ rest (ex_intro _ merged
           (conj H1 (conj H2 H3))))).
Defined.

(** ** The order of the records of a group *)

Lemma NoDup_fmap_inj {A B} (f : A → B) (l : list A) (x y : A) :
  NoDup (f <$> l) → x ∈ l → y ∈ l → f x = f y → x = y.
Proof.
  induction l as [|z l IH]; [by intros _ ?%elem_of_nil|].
  rewrite fmap_cons, NoDup_cons. intros [Hz Hnd] Hx Hy Hf.
  apply elem_of_cons in Hx as [-> | Hx]; apply elem_of_cons in Hy as [-> | Hy].
  - done.
  - destruct Hz. rewrite Hf. by apply list_elem_of_fmap_2.
  - destruct Hz. rewrite <- Hf. by apply list_elem_of_fmap_2.
  - by apply IH.
Qed.

Lemma sorted_group_unique (g1 g2 : list record) :
  g1 ≡ₚ g2 → NoDup (priority <$> g1) → sorted_group g1 = sorted_group g2.
Proof.
  intros Hp Hnd.
  apply (StronglySorted_unique_strong
           (λ x y : record, (priority x ≤ priority y)%nat)).
  - intros x1 x2 H1 H2 Hle1 Hle2.
    apply (NoDup_fmap_inj priority g1); [done | | | lia].
    + by rewrite <- (sorted_group_Permutation g1).
    + by rewrite Hp, <- (sorted_group_Permutation g2).
  - apply sorted_group_sorted.
  - apply sorted_group_sorted.
  - by rewrite !sorted_group_Permutation.
Qed.

(** X15.  When the records of a group have pairwise different source
    priorities, the merged record does not depend on the order in which
    the group lists them: two orders of the same records give the same
    value for every field and the same investors, and the same sources up
    to their order. *)
Theorem merge_order_independent (g1 g2 : list record) :
  Forall mergeable g1 → g1 ≡ₚ g2 → NoDup (priority <$> g1) →
  (2 ≤ length g1)%nat →
  ∃ m1 m2 s1 s2,
    _merge_company_group g1 = Ok (Some m1)
    ∧ _merge_company_group g2 = Ok (Some m2)
    ∧ (∀ k, k ≠ "sources" → k ≠ "investors" → m1 !! k = m2 !! k)
    ∧ investors_of m1 = investors_of m2
    ∧ m1 !! "sources" = Some (VList s1)
    ∧ m2 !! "sources" = Some (VList s2)
    ∧ s1 ≡ₚ s2.
Proof.
  intros Hall1 Hp Hnd Hlen.
  assert (Hall2 : Forall mergeable g2) by (by rewrite <- Hp).
  pose proof (sorted_group_unique g1 g2 Hp Hnd) as Hsame.
  pose proof (Permutation_length Hp) as Hlen2.
  destruct g1 as [|x1 [|y1 g1]]; [simpl in Hlen; lia.. |].
  destruct g2 as [|x2 [|y2 g2]]; [discriminate.. |].
  destruct (merge_group_spec x1 y1 g1 Hall1)
    as (f1 & r1 & m1 & Hs1 & _ & Hm1 & Hsrc1 & Hinv1 & Hoth1 & Hfill1 & _).
  destruct (merge_group_spec x2 y2 g2 Hall2)
    as (f2 & r2 & m2 & Hs2 & _ & Hm2 & Hsrc2 & Hinv2 & Hoth2 & Hfill2 & _).
  pose proof (merge_group_round _ _ _ _ _ _ Hall1 Hs1 Hm1) as Hr1.
  pose proof (merge_group_round _ _ _ _ _ _ Hall2 Hs2 Hm2) as Hr2.
  rewrite Hsame, Hs2 in Hs1. injection Hs1 as -> ->.
  exists m1, m2. eexists _, _. split_and!; [done | done | | | done | done |].
  - intros k Hk1 Hk2. destruct (decide (k ∈ fill_keys)) as [Hk | Hk].
    + by rewrite Hfill1, Hfill2.
    + destruct (decide (k = "funding_round")) as [-> | Hk3].
      * by rewrite Hr1, Hr2.
      * by rewrite Hoth1, Hoth2.
  - by rewrite Hinv1, Hinv2.
  - apply NoDup_Permutation; [apply NoDup_remove_dups.. |].
    intros a. rewrite !elem_of_remove_dups. unfold truthy_sources.
    by rewrite Hp.
Qed.

Lemma merge_order_independent_witness :
  Forall mergeable [foo_techcrunch; foo_sec]
  ∧ [foo_techcrunch; foo_sec] ≡ₚ [foo_sec; foo_techcrunch]
  ∧ NoDup (priority <$> [foo_techcrunch; foo_sec])
  ∧ ∃ m1 m2 s1 s2,
      _merge_company_group [foo_techcrunch; foo_sec] = Ok (Some m1)
      ∧ _merge_company_group [foo_sec; foo_techcrunch] = Ok (Some m2)
      ∧ (∀ k, k ≠ "sources" → k ≠ "investors" → m1 !! k = m2 !! k)
      ∧ investors_of m1 = investors_of m2
      ∧ m1 !! "sources" = Some (VList s1)
      ∧ m2 !! "sources" = Some (VList s2)
      ∧ s1 ≡ₚ s2.
Proof.
  assert (Hall : Forall mergeable [foo_techcrunch; foo_sec]).
  { repeat constructor; by eauto. }
  assert (Hp : [foo_techcrunch; foo_sec] ≡ₚ [foo_sec; foo_techcrunch]).
  { apply perm_swap. }
  assert (Hnd : NoDup (priority <$> [foo_techcrunch; foo_sec])).
  { by_evaluation. }
  split; [exact Hall|]. split; [exact Hp|]. split; [exact Hnd|].
  apply (merge_order_independent _ _ Hall Hp Hnd). simpl. lia.
Defined.

(** ** The shape of a normalised name *)

Lemma lower_char_not_upper (c : ascii) : is_upper (lower_char c) = false.
Proof. by destruct c as [[] [] [] [] [] [] [] []]. Qed.

Lemma space_not_word (c : ascii) : is_space c = true → is_word c = false.
Proof. by destruct c as [[] [] [] [] [] [] [] []]. Qed.

Lemma rev_reverse {A} (l : list A) : rev l = reverse l.
Proof. apply rev_alt. Qed.

Lemma lstrip_suffix (l : list ascii) : ∃ a, l = a ++ lstrip l.
Proof.
  induction l as [|c l [a IH]]; [by exists []|]. simpl.
  destruct (is_space c); [|by exists []].
  exists (c :: a). simpl. by f_equal.
Qed.

Lemma lstrip_head (l : list ascii) (c : ascii) :
  head (lstrip l) = Some c → is_space c = false.
Proof.
  induction l as [|d l IH]; [done|]. simpl.
  destruct (is_space d) eqn:Hd; [done|]. by intros [= <-].
Qed.

Lemma strip_infix (l : list ascii) : ∃ a b, l = a ++ strip l ++ b.
Proof.
  unfold strip. destruct (lstrip_suffix l) as [a Ha].
  destruct (lstrip_suffix (rev (lstrip l))) as [b Hb].
  exists a, (rev b). rewrite <- rev_app_distr, <- Hb, rev_involutive. done.
Qed.

Lemma strip_head (l : list ascii) (c : ascii) :
  head (strip l) = Some c → is_space c = false.
Proof.
  unfold strip. rewrite rev_reverse, head_reverse.
  destruct (lstrip_suffix (rev (lstrip l))) as [b Hb]. intros Hlast.
  apply (lstrip_head l).
  rewrite <- (rev_involutive (lstrip l)), rev_reverse, head_reverse, Hb.
  destruct (lstrip (rev (lstrip l))) as [|d r] eqn:Hr; [done|].
  by rewrite last_app, Hlast.
Qed.

Lemma strip_last (l : list ascii) (c : ascii) :
  last (strip l) = Some c → is_space c = false.
Proof.
  unfold strip. rewrite rev_reverse, last_reverse. apply lstrip_head.
Qed.

Lemma re_sub_go_Forall (P : ascii → Prop) (p : list item) (skip : nat)
    (s : list ascii) :
  Forall P s → Forall P (re_sub_go p skip s).
Proof.
  intros Hs. revert skip. induction Hs as [|c s Hc Hs IH]; intros skip; [done|].
  simpl. destruct skip as [|k]; [|apply IH].
  destruct (re_match p (c :: s)) as [[|k]|]; try apply IH;
    by constructor.
Qed.

Lemma suffixes_Forall (P : ascii → Prop) (ps : list (list item))
    (s : list ascii) :
  Forall P s → Forall P (foldl (λ acc pattern, re_sub_suffix pattern acc) s ps).
Proof.
  revert s. induction ps as [|p ps IH]; intros s Hs; [done|]. simpl.
  apply IH. by apply re_sub_go_Forall.
Qed.

Lemma collapse_spaces_chars (in_run : bool) (s : list ascii) :
  Forall (λ c, is_upper c = false ∧ (is_word c || is_space c) = true) s →
  Forall (λ c, name_char c = true) (collapse_spaces in_run s).
Proof.
  intros Hs. revert in_run.
  induction Hs as [|c s [Hu Hc] Hs IH]; intros in_run; [constructor|]. simpl.
  destruct (is_space c) eqn:Hsp.
  - destruct in_run; [apply IH|]. constructor; [done | apply IH].
  - constructor; [|apply IH]. unfold name_char.
    rewrite orb_false_r in Hc. by rewrite Hc, Hu.
Qed.

Lemma collapse_spaces_single (in_run : bool) (s : list ascii) :
  (in_run = true → ∀ c, head (collapse_spaces in_run s) = Some c →
                        is_space c = false)
  ∧ (∀ l1 c1 c2 l2, collapse_spaces in_run s = l1 ++ c1 :: c2 :: l2 →
                    is_space c1 = true → is_space c2 = false).
Proof.
  revert in_run. induction s as [|c s IH]; intros in_run.
  { split; [done|]. by intros [|? ?] ? ? ? ?. }
  simpl. destruct (is_space c) eqn:Hsp.
  - destruct in_run; [apply IH|]. split; [done|].
    intros [|d l1] c1 c2 l2; simpl.
    + intros [= <- Heq] _. apply (proj1 (IH true) eq_refl). by rewrite Heq.
    + intros [= _ Heq]. exact (proj2 (IH true) _ _ _ _ Heq).
  - split; [by intros _ ? [= <-]|].
    intros [|d l1] c1 c2 l2; simpl.
    + intros [= <- _]. congruence.
    + intros [= _ Heq]. exact (proj2 (IH false) _ _ _ _ Heq).
Qed.

Lemma normalize_chars_shape (l : list ascii) :
  Forall (λ c, name_char c = true) (normalize_chars l)
  ∧ (∀ c, head (normalize_chars l) = Some c → is_space c = false)
  ∧ (∀ c, last (normalize_chars l) = Some c → is_space c = false)
  ∧ (∀ l1 c1 c2 l2, normalize_chars l = l1 ++ c1 :: c2 :: l2 →
                    is_space c1 = true → is_space c2 = false).
Proof.
  unfold normalize_chars.
  set (t := remove_special _).
  assert (Ht : Forall (λ c, is_upper c = false
                            ∧ (is_word c || is_space c) = true) t).
  { unfold t, remove_special. apply Forall_forall.
    intros c [Hc Hin]%list_elem_of_filter. split; [|by apply Is_true_true].
    clear Hc. revert c Hin. apply Forall_forall, suffixes_Forall.
    destruct (strip_infix (lower l)) as (a & b & Hab).
    assert (Hl : Forall (λ c, is_upper c = false) (lower l)).
    { unfold lower. apply Forall_forall. intros c Hc.
      apply list_elem_of_fmap in Hc as (d & -> & _).
      apply lower_char_not_upper. }
    rewrite Hab in Hl. by apply Forall_app in Hl as [_ [? _]%Forall_app]. }
  destruct (strip_infix (collapse_spaces false t)) as (a & b & Hab).
  split_and!.
  - pose proof (collapse_spaces_chars false t Ht) as Hc.
    rewrite Hab in Hc. by apply Forall_app in Hc as [_ [? _]%Forall_app].
  - apply strip_head.
  - apply strip_last.
  - intros l1 c1 c2 l2 Heq.
    apply (proj2 (collapse_spaces_single false t) (a ++ l1) c1 c2 (l2 ++ b)).
    rewrite Hab at 1. rewrite Heq. by rewrite <- !app_assoc.
Qed.

(** X16.  A normalised name is clean: on a name written in ASCII, the
    result holds only lowercase letters, digits, underscores and spaces,
    it neither starts nor ends with white space, and no white space
    follows white space. *)
Theorem normalized_name_shape (name : value) (n : string) :
  ascii_name name →
  _normalize_company_name name = Ok n →
  Forall (λ c, name_char c = true) (chars n)
  ∧ (∀ c, head (chars n) = Some c → is_space c = false)
  ∧ (∀ c, last (chars n) = Some c → is_space c = false)
  ∧ (∀ l1 c1 c2 l2, chars n = l1 ++ c1 :: c2 :: l2 →
                    is_space c1 = true → is_space c2 = false).
Proof.
  intros _. unfold _normalize_company_name.
  destruct (negb (truthy name)).
  { intros [= <-]. split_and!; [constructor | done | done |].
    by intros [|? ?] ? ? ? ?. }
  destruct name as [[|k|s]|l]; try discriminate.
  generalize (normalize_chars_shape (chars s)).
  generalize (normalize_chars (chars s)). intros l Hshape [= <-].
  unfold chars at 1 2 3 4, of_chars.
  by rewrite String.list_ascii_of_string_of_list_ascii.
Qed.

Lemma normalized_name_shape_witness :
  ascii_name (VStr "  Zinc & Co., Ltd. ")
  ∧ _normalize_company_name (VStr "  Zinc & Co., Ltd. ") = Ok "zinc"
  ∧ Forall (λ c, name_char c = true) (chars "zinc").
Proof.
  assert (H1 : ascii_name (VStr "  Zinc & Co., Ltd. ")).
  { intros s [= <-]. by_evaluation. }
  assert (H2 : _normalize_company_name (VStr "  Zinc & Co., Ltd. ") = Ok "zinc").
  { vm_compute. reflexivity. }
  split; [exact H1|]. split; [exact H2|].
  exact (proj1 (normalized_name_shape _ _ H1 H2)).
Defined.
